(** * zk-slot-timeline-soundness: the sampling and change-detection engine

    A shallow embedding of [app.py]: the sampled block sequence
    ([range(start_block, end_block + 1, step)]), the slot scanner
    [scan_timeline] with its per-sample [try]/[except], the change
    summarizer [summarize_changes], and the report reduction and exit
    convention of [main].

    Python integers are unbounded, so they are [Z]; [str] is [string];
    the raw storage value is a list of bytes; a [dict] is an
    insertion-ordered association list with unique keys; exceptions and
    [sys.exit] are explicit outcomes of a small state-and-error monad whose
    state is the observable world (StorageReader calls, clock reads,
    printed lines). *)

From Stdlib Require Import ZArith Lia List Sorted Strings.Ascii Strings.Byte.
From stdpp Require Import base list strings gmap.

Local Open Scope Z_scope.

(** ** Outcomes of a Python computation *)

(** Exceptions deriving from [Exception].  [Failure msg] stands for any
    exception raised by an external collaborator (the RPC transport, the
    address and slot resolvers); [msg] is what [str(e)] gives. *)
Inductive exn :=
| NameError (name : string)
| TypeError (msg : string)
| ValueError (msg : string)
| KeyError (key : string)
| Failure (msg : string).

(** [sys.exit(code)] raises [SystemExit], which [except Exception] does not
    catch: it is an outcome of its own. *)
Inductive outcome (A : Type) :=
| Ret (a : A)
| Raise (e : exn)
| Exit (code : Z).
Arguments Ret {A} a.
Arguments Raise {A} e.
Arguments Exit {A} code.

(** [str(e)] *)
Definition exn_str (e : exn) : string :=
  match e with
  | NameError name => "name '" +:+ name +:+ "' is not defined"
  | TypeError msg | ValueError msg | Failure msg => msg
  | KeyError key => "'" +:+ key +:+ "'"
  end.

(** ** The sampled block sequence (lines 83-84) *)

Module Range.

(** CPython's [compute_range_length] for a positive step. *)
Definition range_length (lo hi step : Z) : Z :=
  if lo <? hi then (hi - lo - 1) / step + 1 else 0.

(** [list(range(start, stop, step))]: element [k] is [start + k * step]. *)
Definition py_range (start stop step : Z) : outcome (list Z) :=
  if step =? 0 then Raise (ValueError "range() arg 3 must not be zero")
  else
    let n := if 0 <? step then range_length start stop step
             else range_length stop start (- step) in
    Ret (map (fun k : nat => start + Z.of_nat k * step) (seq 0 (Z.to_nat n))).

(** [blocks = list(range(start_block, end_block + 1, step))] *)
Definition sampled_blocks (start_block end_block step : Z) : outcome (list Z) :=
  py_range start_block (end_block + 1) step.

(** The sequence the data model describes: [start + k * stride] for
    [k = 0 .. n-1]. *)
Definition arith_seq (start stride : Z) (n : nat) : list Z :=
  map (fun k : nat => start + Z.of_nat k * stride) (seq 0 n).

End Range.

(** ** The change summarizer (lines 102-112) *)

(** One observation [(block, value)]; the value is the hex string of a
    successful read or the ["ERROR:..."] string of a failed one. *)
Definition obs : Type := Z * string.

Module Summarizer.

(** The loop body: [if val != prev: changes.append((block, val)); prev = val].
    [prev] starts as [None], which no [str] equals. *)
Definition step (st : list obs * option string) (o : obs)
  : list obs * option string :=
  let '(changes, prev) := st in
  let '(block, val) := o in
  if bool_decide (Some val ≠ prev)
  then (changes ++ [(block, val)], Some val)
  else (changes, prev).

Definition summarize_changes (series : list obs) : list obs :=
  fst (fold_left step series ([], None)).

(** The same scan written by recursion on the series, carrying [prev]. *)
Fixpoint collapse (prev : option string) (series : list obs) : list obs :=
  match series with
  | [] => []
  | (block, val) :: rest =>
      if bool_decide (Some val ≠ prev)
      then (block, val) :: collapse (Some val) rest
      else collapse prev rest
  end.

(** No two adjacent observations carry the same outcome. *)
Fixpoint no_adjacent_equal (l : list obs) : Prop :=
  match l with
  | [] => True
  | o :: rest =>
      match rest with
      | [] => True
      | o' :: _ => o.2 ≠ o'.2
      end ∧ no_adjacent_equal rest
  end.

End Summarizer.

(** ** Values, the module's globals and the observable world *)

(** Numbers the progress and timing code computes.  Clock readings and the
    float arithmetic on them are kept symbolic: [Now n] is the value of the
    [n]-th call of [time.time()], and no rounding behaviour is interpreted. *)
Inductive num :=
| Int (z : Z)
| Now (n : nat)
| Sub (a b : num)
| Div (a b : num)
| Mul (a b : num)
| Round (a : num) (ndigits : Z).

(** What a module-level name can be bound to. *)
Inductive pyobj :=
| PNum (n : num)
| PStr (s : string)
| PObject (descr : string).

(** One StorageReader request: [(address, slot, block_identifier)]. *)
Definition Call : Type := string * Z * Z.

(** [Slot = Tuple[str, int]]: [(label, slot_index_int)]. *)
Definition Slot : Type := string * Z.

(** An insertion-ordered [dict] with [str] keys. *)
Definition dict (V : Type) : Type := list (string * V).

(** The structured report of the [--json] branch (lines 190-200). *)
Record JsonReport := {
  j_rpc : string;
  j_address : string;
  j_range : Z * Z * Z;
  j_slots : list Slot;
  j_timeline : dict (list obs);
  j_change_points : dict (list obs);
  j_total_changes : Z;
  j_ok : bool;
  j_elapsed_seconds : num
}.

(** The lines the program prints, one constructor per [print] of the source. *)
Inductive line :=
| L_bad_range
| L_bad_step
| L_input_error (msg : string)
| L_bad_rpc_url
| L_connection_failed
| L_banner
| L_chain_id (id : Z)
| L_rpc (url : string)
| L_address (addr : string)
| L_range (from_block to_block step : Z)
| L_slots (labels : list string)
| L_progress (b i total : Z) (pct eta : num)
| L_change_points
| L_constant (lbl : string) (first_block : Z)
| L_changes (lbl : string) (n : Z)
| L_change (blk : Z) (val : string)
| L_verdict (ok : bool)
| L_completed (elapsed : num)
| L_json (report : JsonReport).

Record World := {
  w_calls : list Call;
  w_clock : nat;
  w_stdout : list line
}.

Definition world0 : World :=
  {| w_calls := []; w_clock := 0%nat; w_stdout := [] |}.

(** The command line as [argparse] delivers it. *)
Record Args := {
  a_rpc : string;
  a_address : string;
  a_from_block : Z;
  a_to_block : Z;
  a_step : Z;
  a_slot : option (list string);
  a_manifest : option string;
  a_timeout : Z;
  a_json : bool
}.

(** What the program's surroundings decide.  The StorageReader answers a
    request, possibly depending on the requests made before it, with raw
    bytes or with a failure described by a message.  Address validation,
    slot resolution and the RPC connection are external collaborators and
    enter through their results. *)
Record Env := {
  globals : gmap string pyobj;
  storage : list Call → Call → list byte + string;
  hex_0x : bool;
  web3_is_address : string → bool;
  web3_to_checksum_address : string → string;
  parse_slots : Args → outcome (list Slot);
  rpc_connected : string → Z → bool;
  rpc_chain_id : outcome Z
}.

(** The names [app.py] binds at module level: its imports, [DEFAULT_RPC],
    the [Slot] alias and its functions.  No statement of the module assigns
    [start_time], and no builtin has that name. *)
Definition module_globals (default_rpc : string) : gmap string pyobj :=
  list_to_map
    [ ("os", PObject "module"); ("sys", PObject "module");
      ("json", PObject "module"); ("time", PObject "module");
      ("argparse", PObject "module");
      ("Dict", PObject "typing"); ("List", PObject "typing");
      ("Tuple", PObject "typing"); ("Optional", PObject "typing");
      ("Web3", PObject "class");
      ("DEFAULT_RPC", PStr default_rpc);
      ("Slot", PObject "typing");
      ("to_checksum", PObject "function");
      ("parse_slot_hex", PObject "function");
      ("parse_slots", PObject "function");
      ("get_storage_at", PObject "function");
      ("scan_timeline", PObject "function");
      ("summarize_changes", PObject "function");
      ("parse_args", PObject "function");
      ("main", PObject "function") ].

(** The environment of a run of [app.py]: the surroundings [env] decides,
    under the globals the module binds. *)
Definition running (default_rpc : string) (env : Env) : Env :=
  {| globals := module_globals default_rpc;
     storage := storage env;
     hex_0x := hex_0x env;
     web3_is_address := web3_is_address env;
     web3_to_checksum_address := web3_to_checksum_address env;
     parse_slots := parse_slots env;
     rpc_connected := rpc_connected env;
     rpc_chain_id := rpc_chain_id env |}.

(** The same surroundings with [start_time] bound to a number, as a caller
    importing the module could bind it before calling [scan_timeline]. *)
Definition with_start_time (t : num) (env : Env) : Env :=
  {| globals := <["start_time" := PNum t]> (globals env);
     storage := storage env;
     hex_0x := hex_0x env;
     web3_is_address := web3_is_address env;
     web3_to_checksum_address := web3_to_checksum_address env;
     parse_slots := parse_slots env;
     rpc_connected := rpc_connected env;
     rpc_chain_id := rpc_chain_id env |}.

(** The same surroundings with another StorageReader. *)
Definition with_storage (rd : list Call → Call → list byte + string)
    (env : Env) : Env :=
  {| globals := globals env;
     storage := rd;
     hex_0x := hex_0x env;
     web3_is_address := web3_is_address env;
     web3_to_checksum_address := web3_to_checksum_address env;
     parse_slots := parse_slots env;
     rpc_connected := rpc_connected env;
     rpc_chain_id := rpc_chain_id env |}.

(** A StorageReader that answers the byte [01] everywhere and times out at
    block 1500. *)
Definition timeout_at_1500 : list Call → Call → list byte + string :=
  fun _ c => if c.2 =? 1500 then inr "timeout" else inl [x01].

(** ** The monad: world passing with exceptions and exit *)

Definition M (A : Type) : Type := World → outcome A * World.

Definition mret {A} (a : A) : M A := fun w => (Ret a, w).

Definition mbind {A B} (m : M A) (f : A → M B) : M B :=
  fun w =>
    match m w with
    | (Ret a, w') => f a w'
    | (Raise e, w') => (Raise e, w')
    | (Exit c, w') => (Exit c, w')
    end.

Definition raise {A} (e : exn) : M A := fun w => (Raise e, w).

Definition sys_exit {A} (code : Z) : M A := fun w => (Exit code, w).

Definition lift {A} (o : outcome A) : M A := fun w => (o, w).

(** [try: m except Exception as e: h e] *)
Definition try_except {A} (m : M A) (h : exn → M A) : M A :=
  fun w =>
    match m w with
    | (Raise e, w') => h e w'
    | r => r
    end.

Declare Scope py_scope.
Delimit Scope py_scope with py.
Notation "'let*' x ':=' m 'in' k" := (mbind m (fun x => k))
  (at level 10, x name, m at level 100, k at level 200) : py_scope.
Notation "'let*' ' p ':=' m 'in' k" := (mbind m (fun p => k))
  (at level 10, p pattern, m at level 100, k at level 200) : py_scope.
Notation "m '>>' k" := (mbind m (fun _ => k))
  (at level 100, k at level 200, right associativity) : py_scope.
Local Open Scope py_scope.

(** [for x in xs: s = body x s] *)
Fixpoint for_each {X S} (xs : list X) (body : X → S → M S) (s : S) : M S :=
  match xs with
  | [] => mret s
  | x :: rest => let* s' := body x s in for_each rest body s'
  end.

Definition print (l : line) : M unit :=
  fun w => (Ret tt, {| w_calls := w_calls w; w_clock := w_clock w;
                       w_stdout := w_stdout w ++ [l] |}).

(** [time.time()] *)
Definition time_time : M num :=
  fun w => (Ret (Now (w_clock w)),
            {| w_calls := w_calls w; w_clock := S (w_clock w);
               w_stdout := w_stdout w |}).

(** Reading a name that is not local to the function. *)
Definition load_global (env : Env) (name : string) : M pyobj :=
  match globals env !! name with
  | Some v => mret v
  | None => raise (NameError name)
  end.

(** [a - v] for a float [a]. *)
Definition float_sub (a : num) (v : pyobj) : M num :=
  match v with
  | PNum b => mret (Sub a b)
  | PStr _ => raise (TypeError "unsupported operand type(s) for -: 'float' and 'str'")
  | PObject d => raise (TypeError ("unsupported operand type(s) for -: 'float' and '" +:+ d +:+ "'"))
  end.

(** ** Dictionaries *)

Module Dict.

(** [d[k]]; [None] stands for [KeyError]. *)
Fixpoint get {V} (k : string) (d : dict V) : option V :=
  match d with
  | [] => None
  | (k', v) :: rest => if decide (k = k') then Some v else get k rest
  end.

(** [d[k] = v]: an existing key keeps its position, a new key goes last. *)
Fixpoint set {V} (k : string) (v : V) (d : dict V) : dict V :=
  match d with
  | [] => [(k, v)]
  | (k', v') :: rest =>
      if decide (k = k') then (k, v) :: rest else (k', v') :: set k v rest
  end.

(** [for k in d] *)
Definition keys {V} (d : dict V) : list string := d.*1.

End Dict.

(** ** Hex rendering of a raw storage value (line 68) *)

Module Hex.

Definition hex_digit (n : N) : ascii :=
  if (n <? 10)%N then ascii_of_N (48 + n) else ascii_of_N (87 + n).

(** [bytes.hex()]: two lowercase digits per byte. *)
Fixpoint bytes_hex (bs : list byte) : string :=
  match bs with
  | [] => EmptyString
  | b :: rest =>
      String (hex_digit (Byte.to_N b / 16))
        (String (hex_digit (Byte.to_N b mod 16)) (bytes_hex rest))
  end.

(** [HexBytes.hex()]: the digits, behind ["0x"] in the releases of the
    library that prepend it. *)
Definition HexBytes_hex (with_0x : bool) (bs : list byte) : string :=
  (if with_0x then "0x" else "") +:+ bytes_hex bs.

End Hex.

(** ** The slot scanner (lines 66-99) *)

Module Scanner.

(** [get_storage_at]: one StorageReader request, logged in the world; the
    answer is rendered by [val.hex()], a failure is raised. *)
Definition get_storage_at (env : Env) (address : string) (slot block_id : Z)
  : M string :=
  fun w =>
    let c : Call := (address, slot, block_id) in
    let w' := {| w_calls := w_calls w ++ [c]; w_clock := w_clock w;
                 w_stdout := w_stdout w |} in
    match storage env (w_calls w) c with
    | inl raw => (Ret (Hex.HexBytes_hex (hex_0x env) raw), w')
    | inr msg => (Raise (Failure msg), w')
    end.

(** [f"ERROR:{e}"] *)
Definition error_value (e : exn) : string := "ERROR:" +:+ exn_str e.

(** Lines 94-97: the guarded read of one (slot, block) pair. *)
Definition read_sample (env : Env) (address : string) (idx b : Z) : M string :=
  try_except (get_storage_at env address idx b)
             (fun e => mret (error_value e)).

(** [out[lbl].append(o)] *)
Definition append_obs (out : dict (list obs)) (lbl : string) (o : obs)
  : M (dict (list obs)) :=
  match Dict.get lbl out with
  | Some series => mret (Dict.set lbl (series ++ [o]) out)
  | None => raise (KeyError lbl)
  end.

(** [{lbl: [] for lbl, _ in slots}] *)
Definition init_out (slots : list Slot) : dict (list obs) :=
  fold_left (fun d (s : Slot) => Dict.set s.1 [] d) slots [].

(** [enumerate(l, start)] *)
Fixpoint enumerate {A} (start : Z) (l : list A) : list (Z * A) :=
  match l with
  | [] => []
  | x :: rest => (start, x) :: enumerate (start + 1) rest
  end.

(** Lines 86-92, the progress line of one sampled block.  [start_time] is
    not assigned in the function, so it is read as a global. *)
Definition progress (env : Env) (i b total : Z) : M unit :=
  let pct := Mul (Div (Int i) (Int total)) (Int 100) in
  let* now := time_time in
  let* start_time := load_global env "start_time" in
  let* elapsed := float_sub now start_time in
  let avg_time_per_block := if 0 <? i then Div elapsed (Int i) else Int 0 in
  let remaining_blocks := total - i in
  let eta := Mul (Int remaining_blocks) avg_time_per_block in
  print (L_progress b i total pct eta).

(** Lines 93-98: every slot queried at block [b]. *)
Definition scan_block (env : Env) (address : string) (slots : list Slot)
    (b : Z) (out : dict (list obs)) : M (dict (list obs)) :=
  for_each slots
    (fun (s : Slot) out =>
       let* val := read_sample env address s.2 b in
       append_obs out s.1 (b, val))
    out.

(** [scan_timeline].  The progress statements (lines 88-92) sit in the
    body of the loop over the blocks, before the loop over the slots, as
    their use of [i] and [b], the comment above them and the indentation of
    line 93 place them.  In the file they are indented one level less than
    the statements around them, a layout Python does not accept: the slot
    loop of line 93 would have no enclosing block. *)
Definition scan_timeline (env : Env) (address : string) (slots : list Slot)
    (start_block end_block step : Z) : M (dict (list obs)) :=
  let out := init_out slots in
  let* blocks := lift (Range.sampled_blocks start_block end_block step) in
  let total := Z.of_nat (length blocks) in
  for_each (enumerate 1 blocks)
    (fun (ib : Z * Z) out =>
       progress env ib.1 ib.2 total >>
       scan_block env address slots ib.2 out)
    out.

End Scanner.

(** ** The report reduction and the command line program (lines 131-204) *)

Module Report.

Import Summarizer.

(** The lines printed for one label (lines 178-183). *)
Definition label_lines (lbl : string) (changes : list obs) : M unit :=
  if Z.of_nat (length changes) =? 1
  then
    match changes with
    | (blk, _) :: _ => print (L_constant lbl blk)
    | [] => raise (Failure "list index out of range")
    end
  else
    print (L_changes lbl (Z.of_nat (length changes) - 1)) >>
    for_each changes (fun (c : obs) (_ : unit) => print (L_change c.1 c.2)) tt.

(** One turn of the loop of lines 174-183. *)
Definition report_label (timeline : dict (list obs)) (lbl : string)
    (acc : dict (list obs) * Z) : M (dict (list obs) * Z) :=
  match Dict.get lbl timeline with
  | None => raise (KeyError lbl)
  | Some series =>
      let changes := summarize_changes series in
      let change_report := Dict.set lbl changes acc.1 in
      let total_changes := acc.2 + Z.max 0 (Z.of_nat (length changes) - 1) in
      label_lines lbl changes >>
      mret (change_report, total_changes)
  end.

(** Lines 172-185: the change report, [total_changes] and the verdict. *)
Definition assemble (timeline : dict (list obs))
  : M (dict (list obs) * Z * bool) :=
  let* r := for_each (Dict.keys timeline) (report_label timeline) ([], 0) in
  mret (r.1, r.2, r.2 =? 0).

(** [to_checksum] (lines 16-19) *)
Definition to_checksum (env : Env) (addr : string) : M string :=
  if web3_is_address env addr
  then mret (web3_to_checksum_address env addr)
  else raise (ValueError ("Invalid Ethereum address: " +:+ addr)).

Definition starts_with (p s : string) : bool := String.prefix p s.

Definition main (env : Env) (args : Args) : M unit :=
  (if a_to_block args <? a_from_block args
   then print L_bad_range >> sys_exit 1 else mret tt) >>
  (if a_step args <=? 0
   then print L_bad_step >> sys_exit 1 else mret tt) >>
  let* '(address, slots) :=
    try_except
      (let* address := to_checksum env (a_address args) in
       let* slots := lift (parse_slots env args) in
       mret (address, slots))
      (fun e => print (L_input_error (exn_str e)) >> sys_exit 1) in
  (if starts_with "http://" (a_rpc args) || starts_with "https://" (a_rpc args)
   then mret tt else print L_bad_rpc_url >> sys_exit 1) >>
  (if rpc_connected env (a_rpc args) (a_timeout args)
   then mret tt else print L_connection_failed >> sys_exit 1) >>
  print L_banner >>
  try_except
    (let* id := lift (rpc_chain_id env) in print (L_chain_id id))
    (fun _ => mret tt) >>
  print (L_rpc (a_rpc args)) >>
  print (L_address address) >>
  print (L_range (a_from_block args) (a_to_block args) (a_step args)) >>
  print (L_slots slots.*1) >>
  let* t0 := time_time in
  let* timeline :=
    Scanner.scan_timeline env address slots
      (a_from_block args) (a_to_block args) (a_step args) in
  let* t1 := time_time in
  let elapsed := Round (Sub t1 t0) 2 in
  print L_change_points >>
  let* '(change_report, total_changes, ok) := assemble timeline in
  print (L_verdict ok) >>
  print (L_completed elapsed) >>
  (if a_json args
   then print (L_json {| j_rpc := a_rpc args; j_address := address;
                         j_range := (a_from_block args, a_to_block args,
                                     a_step args);
                         j_slots := slots; j_timeline := timeline;
                         j_change_points := change_report;
                         j_total_changes := total_changes; j_ok := ok;
                         j_elapsed_seconds := elapsed |})
   else mret tt) >>
  sys_exit (if ok then 0 else 2).

(** The status the process ends with: the argument of [sys.exit], or [1]
    when an exception reaches the top level. *)
Definition exit_status {A} (o : outcome A) : Z :=
  match o with
  | Ret _ => 0
  | Raise _ => 1
  | Exit code => code
  end.

(** The count in the data model's words: the transitions of one label are
    [max(0, len(change_points) - 1)], and [total_changes] is their sum over
    the labels of the report. *)
Definition transitions (change_points : list obs) : Z :=
  Z.max 0 (Z.of_nat (length change_points) - 1).

(** The change report in the data model's words: each label mapped to the
    change points of its timeline, in the timeline's label order. *)
Definition change_points_of (timeline : dict (list obs)) : dict (list obs) :=
  map (fun p : string * list obs => (p.1, summarize_changes p.2)) timeline.

Definition sum_transitions (change_report : dict (list obs)) : Z :=
  foldr (fun (p : string * list obs) acc => transitions p.2 + acc) 0
        change_report.

End Report.

(** ** The scan in the words of the specification *)

Module ScanSpec.

(** The (slot, block) pairs in the order the scan visits them: block by
    block, and within a block slot by slot. *)
Definition visits (slots : list Slot) (blocks : list Z) : list (Slot * Z) :=
  flat_map (fun b : Z => map (fun s : Slot => (s, b)) slots) blocks.

(** The requests these visits send. *)
Definition requests (address : string) (vs : list (Slot * Z)) : list Call :=
  map (fun v : Slot * Z => (address, v.1.2, v.2)) vs.

(** The outcome recorded for one answer of the StorageReader. *)
Definition outcome_of (env : Env) (answer : list byte + string) : string :=
  match answer with
  | inl raw => Hex.HexBytes_hex (hex_0x env) raw
  | inr msg => "ERROR:" +:+ msg
  end.

(** The labelled observation of every visit, the first one made after the
    requests of [history]. *)
Fixpoint samples (env : Env) (address : string) (vs : list (Slot * Z))
    (history : list Call) : list (string * obs) :=
  match vs with
  | [] => []
  | v :: rest =>
      let c : Call := (address, v.1.2, v.2) in
      (v.1.1, (v.2, outcome_of env (storage env history c)))
        :: samples env address rest (history ++ [c])
  end.

(** The observations filed under one label. *)
Definition timeline_of (lbl : string) (ss : list (string * obs)) : list obs :=
  (filter (fun x : string * obs => x.1 = lbl) ss).*2.

End ScanSpec.

(** ** Slot resolution (lines 22-63) and the rendering of a slot index
    (line 194) *)

(** Python's [str] methods and [int], on ASCII text.  Beyond ASCII Python
    knows further spaces, capitals and digits; the statements about these
    functions are made for ASCII text. *)
Module PyStr.

Definition is_ascii (s : string) : bool :=
  forallb (fun c => (N_of_ascii c <? 128)%N) (String.list_ascii_of_string s).

Definition in_range (lo hi : N) (c : ascii) : bool :=
  ((lo <=? N_of_ascii c) && (N_of_ascii c <=? hi))%N.

(** The ASCII characters [str.strip()] removes: tab to carriage return,
    the four separators [0x1c]-[0x1f], and the space. *)
Definition is_space (c : ascii) : bool :=
  in_range 9 13 c || in_range 28 32 c.

Fixpoint lstrip (s : string) : string :=
  match s with
  | EmptyString => EmptyString
  | String c rest => if is_space c then lstrip rest else s
  end.

Fixpoint rstrip (s : string) : string :=
  match s with
  | EmptyString => EmptyString
  | String c rest =>
      match rstrip rest with
      | EmptyString => if is_space c then EmptyString else String c EmptyString
      | kept => String c kept
      end
  end.

(** [s.strip()] for ASCII [s]: beyond ASCII, [str.strip()] also removes
    Unicode white space such as U+00A0. *)
Definition strip (s : string) : string := rstrip (lstrip s).

Definition lower_char (c : ascii) : ascii :=
  if in_range 65 90 c then ascii_of_N (N_of_ascii c + 32) else c.

(** [s.lower()] *)
Fixpoint lower (s : string) : string :=
  match s with
  | EmptyString => EmptyString
  | String c rest => String (lower_char c) (lower rest)
  end.

(** CPython's [_PyLong_DigitValue]: the value of a digit in bases up to 36,
    and 37 for every other character. *)
Definition digit_value (c : ascii) : N :=
  if in_range 48 57 c then N_of_ascii c - 48
  else if in_range 97 122 c then N_of_ascii c - 87
  else if in_range 65 90 c then N_of_ascii c - 55
  else 37.

(** C's [Py_ISSPACE], which [int] skips around the number. *)
Definition c_space (c : ascii) : bool :=
  in_range 9 13 c || (c =? " ")%char.

Fixpoint skip_space (s : string) : string :=
  match s with
  | EmptyString => EmptyString
  | String c rest => if c_space c then skip_space rest else s
  end.

(** The validating loop of [long_from_string_base] for base 16: it reads
    digits and underscores, refuses two underscores in a row and an
    underscore at the end, and stops at the first other character.
    [prev] is the character read last, [n] the number of characters read,
    [acc] the value of the digits read; the result carries the unread
    rest. *)
Fixpoint scan16 (s : string) (prev : ascii) (n : nat) (acc : N)
  : option (N * nat * string) :=
  match s with
  | String c rest =>
      if (c =? "_")%char then
        if (prev =? "_")%char then None else scan16 rest c (S n) acc
      else if (digit_value c <? 16)%N then
        scan16 rest c (S n) (16 * acc + digit_value c)
      else if (prev =? "_")%char then None else Some (acc, n, s)
  | EmptyString =>
      if (prev =? "_")%char then None else Some (acc, n, s)
  end.

(** [int(s, 16)] for ASCII [s], as [PyLong_FromString] reads it: spaces,
    an optional sign, an optional [0x] or [0X] that one underscore may
    follow, the digits, spaces, and nothing more.  [None] stands for
    [ValueError].  Beyond ASCII, [int] also reads the Unicode decimal
    digits and spaces, which this function refuses. *)
Definition int16 (s : string) : option Z :=
  let s := skip_space s in
  let '(negative, s) :=
    match s with
    | String c rest =>
        if (c =? "+")%char then (false, rest)
        else if (c =? "-")%char then (true, rest)
        else (false, s)
    | EmptyString => (false, s)
    end in
  let s :=
    match s with
    | String c0 (String c1 rest) =>
        if (c0 =? "0")%char && ((c1 =? "x")%char || (c1 =? "X")%char)
        then match rest with
             | String c2 rest' => if (c2 =? "_")%char then rest' else rest
             | EmptyString => rest
             end
        else s
    | _ => s
    end in
  match s with
  | String c _ =>
      if (c =? "_")%char then None
      else
        match scan16 s Ascii.zero 0 0 with
        | Some (v, n, rest) =>
            match n, skip_space rest with
            | S _, EmptyString =>
                Some (if negative then - Z.of_N v else Z.of_N v)
            | _, _ => None
            end
        | None => None
        end
  | EmptyString => None
  end.

(** The digits of [hex(n)], most significant first; [fuel] bounds their
    number. *)
Fixpoint hex_digits (fuel : nat) (n : N) (acc : string) : string :=
  match fuel with
  | O => acc
  | S fuel' =>
      let acc' := String (Hex.hex_digit (n mod 16)) acc in
      if (n <? 16)%N then acc' else hex_digits fuel' (n / 16) acc'
  end.

(** [hex(n)] *)
Definition hex (n : Z) : string :=
  let digits := hex_digits (S (N.to_nat (N.log2 (Z.abs_N n)))) (Z.abs_N n) "" in
  if n <? 0 then "-0x" +:+ digits else "0x" +:+ digits.

End PyStr.

(** What [json.load] can deliver.  [JDict items] lists the entries of the
    loaded [dict] in the order [items()] gives them. *)
#[warnings="-register-all"]
Inductive json :=
| JNull
| JBool (b : bool)
| JInt (n : Z)
| JFloat (repr : string)
| JStr (s : string)
| JList (items : list json)
| JDict (items : list (string * json)).

Module Slots.

(** [parse_slot_hex] (lines 22-29) *)
Definition parse_slot_hex (raw : string) : outcome Z :=
  let s := PyStr.lower (PyStr.strip raw) in
  if Report.starts_with "0x" s then
    match PyStr.int16 s with
    | Some n => Ret n
    | None => Raise (ValueError ("Invalid slot hex: " +:+ raw))
    end
  else Raise (ValueError ("Slot must be 0x-prefixed hex: " +:+ raw)).

(** [type(v).__name__] *)
Definition type_name (v : json) : string :=
  match v with
  | JNull => "NoneType"
  | JBool _ => "bool"
  | JInt _ => "int"
  | JFloat _ => "float"
  | JStr _ => "str"
  | JList _ => "list"
  | JDict _ => "dict"
  end.

(** The [AttributeError] of [raw.strip()] for a manifest value that is not
    a [str], carried with its message. *)
Definition no_strip (raw : json) : exn :=
  Failure ("'" +:+ type_name raw +:+ "' object has no attribute 'strip'").

(** [parse_slot_hex(raw)] for a value of a manifest. *)
Definition parse_slot_value (raw : json) : outcome Z :=
  match raw with
  | JStr s => parse_slot_hex s
  | _ => Raise (no_strip raw)
  end.

(** [item.split(":", 1)] when [":" in item]: the text before the first
    colon and the text after it. *)
Fixpoint split_colon (item : string) : option (string * string) :=
  match item with
  | EmptyString => None
  | String c rest =>
      if (c =? ":")%char then Some (EmptyString, rest)
      else match split_colon rest with
           | Some (label, raw) => Some (String c label, raw)
           | None => None
           end
  end.

(** Lines 43-46: the label and the raw index of one [--slot] item. *)
Definition label_raw (item : string) : string * string :=
  match split_colon item with
  | Some p => p
  | None => (item, item)
  end.

(** The three loops of [parse_slots]: [slots.append((label, index))] for
    every entry, until an index fails to parse. *)
Fixpoint collect {X} (entry : X → outcome Slot) (xs : list X)
    (slots : list Slot) : outcome (list Slot) :=
  match xs with
  | [] => Ret slots
  | x :: rest =>
      match entry x with
      | Ret slot => collect entry rest (slots ++ [slot])
      | Raise e => Raise e
      | Exit code => Exit code
      end
  end.

Definition with_label {L} (label : L) (index : outcome Z) : outcome (L * Z) :=
  match index with
  | Ret idx => Ret (label, idx)
  | Raise e => Raise e
  | Exit code => Exit code
  end.

(** Line 47 *)
Definition slot_entry (item : string) : outcome Slot :=
  let '(label, raw) := label_raw item in with_label label (parse_slot_hex raw).

(** Line 55: the label is the entry itself. *)
Definition list_entry (raw : json) : outcome Slot :=
  match raw with
  | JStr s => with_label s (parse_slot_hex s)
  | _ => Raise (no_strip raw)
  end.

(** Line 58 *)
Definition dict_entry (item : string * json) : outcome Slot :=
  with_label item.1 (parse_slot_value item.2).

(** [parse_slots] (lines 32-63).  [load path] is what opening and
    [json.load]ing the manifest gives: the document, or the exception of
    the file system or of the JSON decoder. *)
Definition parse_slots (load : string → outcome json) (args : Args)
  : outcome (list Slot) :=
  match a_slot args with
  | Some (item :: items) => collect slot_entry (item :: items) []
  | _ =>
      match a_manifest args with
      | Some (String c path) =>
          match load (String c path) with
          | Ret (JList data) => collect list_entry data []
          | Ret (JDict data) => collect dict_entry data []
          | Ret _ =>
              Raise (ValueError "Manifest must be a list of 0x-hex slots or a mapping label -> 0x-hex slot.")
          | Raise e => Raise e
          | Exit code => Exit code
          end
      | _ =>
          Raise (ValueError "No slots provided. Use --slot (repeatable) or --manifest JSON file.")
      end
  end.

End Slots.

(** The surroundings whose slot resolver is [parse_slots] itself, reading
    manifests through [load]. *)
Definition with_parse_slots (load : string → outcome json) (env : Env) : Env :=
  {| globals := globals env;
     storage := storage env;
     hex_0x := hex_0x env;
     web3_is_address := web3_is_address env;
     web3_to_checksum_address := web3_to_checksum_address env;
     parse_slots := Slots.parse_slots load;
     rpc_connected := rpc_connected env;
     rpc_chain_id := rpc_chain_id env |}.

(** ** Predicates used in the statements *)

(** Computations that only print: they return, and leave the request log
    and the clock as they were. *)
Definition prints_only {A} (m : M A) : Prop :=
  ∀ w, ∃ a w', m w = (Ret a, w') ∧
               w_calls w' = w_calls w ∧ w_clock w' = w_clock w.

(** The number of adjacent observations whose outcomes differ. *)
Fixpoint adjacent_changes (l : list obs) : nat :=
  match l with
  | [] => 0
  | o :: rest =>
      match rest with
      | [] => 0
      | o' :: _ => if bool_decide (o.2 ≠ o'.2) then 1 else 0
      end + adjacent_changes rest
  end.

(** What a rejected run looks like: status 1, one line printed, the
    StorageReader and the clock untouched. *)
Definition rejected (r : outcome unit * World) (w : World) : Prop :=
  r.1 = Exit 1 ∧ w_calls r.2 = w_calls w ∧ w_clock r.2 = w_clock w ∧
  ∃ complaint, w_stdout r.2 = w_stdout w ++ [complaint].

(** All observations of a series carry the same outcome. *)
Definition constant (series : list obs) : Prop :=
  ∀ o o', o ∈ series → o' ∈ series → o.2 = o'.2.

(** The characters a slot index can be written with: hex digits, the [x]
    of the prefix, the underscore, and white space around them. *)
Definition slot_char (c : ascii) : bool :=
  (PyStr.digit_value c <? 16)%N
  || (c =? "x")%char || (c =? "X")%char || (c =? "_")%char
  || PyStr.is_space c.

(** A manifest value whose text, when it is a string, is ASCII. *)
Definition ascii_text (v : json) : bool :=
  match v with
  | JStr s => PyStr.is_ascii s
  | _ => true
  end.

(** * Properties *)

(** ** The change summarizer *)

Section SummarizerFacts.

Import Summarizer.

Lemma fold_step_collapse (series : list obs) :
  ∀ (changes : list obs) (prev : option string),
    (fold_left step series (changes, prev)).1 = changes ++ collapse prev series.
Proof.
  induction series as [|[block val] rest IH]; intros changes prev; simpl.
  - by rewrite app_nil_r.
  - case_bool_decide; rewrite IH; [by rewrite <- app_assoc | done].
Qed.

Lemma summarize_changes_collapse (series : list obs) :
  summarize_changes series = collapse None series.
Proof. unfold summarize_changes. by rewrite fold_step_collapse. Qed.

Lemma summarize_changes_nonempty (series : list obs) :
  series ≠ [] → summarize_changes series ≠ [].
Proof.
  rewrite summarize_changes_collapse.
  destruct series as [|[block val] rest]; [done | discriminate].
Qed.

Lemma collapse_sublist (series : list obs) :
  ∀ prev, sublist (collapse prev series) series.
Proof.
  induction series as [|[block val] rest IH]; intros prev; simpl.
  - constructor.
  - case_bool_decide; [apply sublist_skip | apply sublist_cons]; apply IH.
Qed.

(** The first retained observation differs from the outcome carried in. *)
Lemma collapse_head_ne (series : list obs) :
  ∀ prev o rest, collapse prev series = o :: rest → Some o.2 ≠ prev.
Proof.
  induction series as [|[block val] tl IH]; intros prev o rest; simpl.
  - discriminate.
  - case_bool_decide as Hne.
    + intros [= <- _]. exact Hne.
    + apply IH.
Qed.

Lemma collapse_no_adjacent_equal (series : list obs) :
  ∀ prev, no_adjacent_equal (collapse prev series).
Proof.
  induction series as [|[block val] tl IH]; intros prev; simpl; [done|].
  case_bool_decide; [|apply IH].
  simpl. split; [|apply IH].
  destruct (collapse (Some val) tl) as [|o' r] eqn:E; [done|].
  apply collapse_head_ne in E. simpl. congruence.
Qed.

Lemma collapse_idempotent (series : list obs) :
  ∀ prev, collapse prev (collapse prev series) = collapse prev series.
Proof.
  induction series as [|[block val] tl IH]; intros prev; simpl; [done|].
  case_bool_decide as Hne.
  - simpl. rewrite bool_decide_true by done. by rewrite IH.
  - apply IH.
Qed.

End SummarizerFacts.

(** C3: for a non-empty timeline, [summarize_changes] returns a non-empty
    subsequence of it that starts with the timeline's first observation and
    in which no two adjacent change points carry the same outcome. *)
Theorem summarize_changes_change_points (series : list obs) :
  series ≠ [] →
  Summarizer.summarize_changes series ≠ [] ∧
  head (Summarizer.summarize_changes series) = head series ∧
  sublist (Summarizer.summarize_changes series) series ∧
  Summarizer.no_adjacent_equal (Summarizer.summarize_changes series).
Proof.
  intros Hne. rewrite summarize_changes_collapse.
  repeat split.
  - rewrite <- summarize_changes_collapse.
    by apply summarize_changes_nonempty.
  - destruct series as [|[block val] rest]; [done|]. reflexivity.
  - apply collapse_sublist.
  - apply collapse_no_adjacent_equal.
Qed.

Lemma summarize_changes_change_points_witness :
  let series : list obs := [(1000, "0x01"); (1500, "0x01"); (2000, "0x02")] in
  series ≠ [] ∧
  Summarizer.summarize_changes series ≠ [] ∧
  head (Summarizer.summarize_changes series) = head series ∧
  sublist (Summarizer.summarize_changes series) series ∧
  Summarizer.no_adjacent_equal (Summarizer.summarize_changes series).
Proof.
  split; [discriminate|].
  apply (summarize_changes_change_points
           [(1000, "0x01"); (1500, "0x01"); (2000, "0x02")]).
  discriminate.
Defined.

(** C4: [summarize_changes] is idempotent: summarizing its own output gives
    that output back. *)
Theorem summarize_changes_idempotent (series : list obs) :
  Summarizer.summarize_changes (Summarizer.summarize_changes series)
  = Summarizer.summarize_changes series.
Proof.
  rewrite !summarize_changes_collapse. apply collapse_idempotent.
Qed.

(** C9: on the empty observation sequence [summarize_changes] returns the
    empty sequence. *)
Theorem summarize_changes_empty :
  Summarizer.summarize_changes [] = [].
Proof. reflexivity. Qed.

(** ** The sampled block sequence *)

Section RangeFacts.

Import Range.

Lemma sampled_blocks_valid (start_block end_block step : Z) :
  start_block ≤ end_block → 0 < step →
  sampled_blocks start_block end_block step
  = Ret (arith_seq start_block step
           (Z.to_nat ((end_block - start_block) / step + 1))).
Proof.
  intros Hle Hpos. unfold sampled_blocks, py_range, range_length, arith_seq.
  destruct (Z.eqb_spec step 0) as [->|_]; [lia|].
  destruct (Z.ltb_spec 0 step) as [_|?]; [|lia].
  destruct (Z.ltb_spec start_block (end_block + 1)) as [_|?]; [|lia].
  by replace (end_block + 1 - start_block - 1)
    with (end_block - start_block) by lia.
Qed.

Lemma arith_seq_from_sorted (start stride : Z) (n : nat) :
  0 < stride →
  ∀ a : nat,
    StronglySorted Z.lt
      (map (fun k : nat => start + Z.of_nat k * stride) (seq a n)).
Proof.
  intros Hpos. induction n as [|n IH]; intros a; simpl; constructor.
  - apply IH.
  - apply Forall_forall. intros x Hx.
    apply list_elem_of_In, in_map_iff in Hx as (k & <- & Hk).
    apply in_seq in Hk. nia.
Qed.

Lemma arith_seq_elem (start stride : Z) (n : nat) (b : Z) :
  b ∈ arith_seq start stride n ↔
  ∃ k : nat, (k < n)%nat ∧ b = start + Z.of_nat k * stride.
Proof.
  unfold arith_seq. rewrite list_elem_of_In, in_map_iff. split.
  - intros (k & <- & Hk). apply in_seq in Hk. exists k. split; [lia|done].
  - intros (k & Hk & ->). exists k. split; [done|]. apply in_seq. lia.
Qed.

Lemma arith_seq_length (start stride : Z) (n : nat) :
  length (arith_seq start stride n) = n.
Proof. unfold arith_seq. by rewrite length_map, length_seq. Qed.

End RangeFacts.

(** C2: for [start <= end] and [stride > 0] the sampled blocks are exactly
    [start, start + stride, start + 2*stride, ...] up to the last value not
    above [end]: the list starts with [start], is strictly ascending, holds
    only values congruent to [start] modulo [stride] and at most [end],
    holds every such [start + k*stride], and has
    [floor((end - start) / stride) + 1] elements. *)
Theorem sampled_blocks_sequence (start_block end_block stride : Z) :
  start_block ≤ end_block → 0 < stride →
  ∃ blocks : list Z,
    Range.sampled_blocks start_block end_block stride = Ret blocks ∧
    blocks = Range.arith_seq start_block stride (length blocks) ∧
    Z.of_nat (length blocks) = (end_block - start_block) / stride + 1 ∧
    head blocks = Some start_block ∧
    StronglySorted Z.lt blocks ∧
    Forall (fun b => b mod stride = start_block mod stride ∧ b ≤ end_block)
           blocks ∧
    (∀ k : Z, 0 ≤ k → start_block + k * stride ≤ end_block →
              start_block + k * stride ∈ blocks).
Proof.
  intros Hle Hpos.
  set (q := (end_block - start_block) / stride).
  assert (Hq0 : 0 ≤ q) by (apply Z.div_pos; lia).
  assert (Hqle : stride * q ≤ end_block - start_block)
    by (apply Z.mul_div_le; lia).
  assert (Hqlt : end_block - start_block < stride * (q + 1)).
  { pose proof (Z.mul_succ_div_gt (end_block - start_block) stride Hpos).
    fold q in H. lia. }
  eexists. split; [by apply sampled_blocks_valid|]. fold q.
  rewrite arith_seq_length.
  split; [done|]. split; [lia|].
  split.
  { replace (Z.to_nat (q + 1)) with (S (Z.to_nat q)) by lia.
    unfold Range.arith_seq. simpl. f_equal. lia. }
  split; [by apply arith_seq_from_sorted|].
  split.
  - apply Forall_forall. intros b Hb.
    apply arith_seq_elem in Hb as (k & Hk & ->). split.
    + apply Z_mod_plus_full.
    + nia.
  - intros k Hk Hbound. apply arith_seq_elem.
    exists (Z.to_nat k). split; [nia|]. f_equal. lia.
Qed.

Lemma sampled_blocks_sequence_witness :
  1000 ≤ 2300 ∧ 0 < 500 ∧
  ∃ blocks : list Z,
    Range.sampled_blocks 1000 2300 500 = Ret blocks ∧
    blocks = Range.arith_seq 1000 500 (length blocks) ∧
    Z.of_nat (length blocks) = (2300 - 1000) / 500 + 1 ∧
    head blocks = Some 1000 ∧
    StronglySorted Z.lt blocks ∧
    Forall (fun b => b mod 500 = 1000 mod 500 ∧ b ≤ 2300) blocks ∧
    (∀ k : Z, 0 ≤ k → 1000 + k * 500 ≤ 2300 → 1000 + k * 500 ∈ blocks).
Proof.
  split; [lia|]. split; [lia|].
  apply (sampled_blocks_sequence 1000 2300 500); lia.
Defined.

(** ** Recorded outcomes *)

Lemma hex_high_digit_not_E (b : byte) :
  Hex.hex_digit (Byte.to_N b / 16) ≠ "E"%char.
Proof. destruct b; vm_compute; discriminate. Qed.

(** What [read_sample] returns: the hex string of the answer, or
    ["ERROR:"] followed by the failure's description; the request is
    logged either way and nothing is raised. *)
Lemma read_sample_run (env : Env) (address : string) (idx b : Z) (w : World) :
  Scanner.read_sample env address idx b w
  = (Ret match storage env (w_calls w) (address, idx, b) with
         | inl raw => Hex.HexBytes_hex (hex_0x env) raw
         | inr msg => "ERROR:" +:+ msg
         end,
     {| w_calls := w_calls w ++ [(address, idx, b)];
        w_clock := w_clock w; w_stdout := w_stdout w |}).
Proof.
  unfold Scanner.read_sample, try_except, Scanner.get_storage_at.
  by destruct (storage env (w_calls w) (address, idx, b)).
Qed.

(** The hex rendering of a value never reads as an error string: it
    starts with a lowercase digit, the error string with a capital [E]. *)
Lemma hex_ne_error_value (with_0x : bool) (raw : list byte) (e : exn) :
  Hex.HexBytes_hex with_0x raw ≠ Scanner.error_value e.
Proof.
  unfold Hex.HexBytes_hex, Scanner.error_value.
  destruct with_0x; simpl; [discriminate|].
  destruct raw as [|b rest]; simpl; [discriminate|].
  intros [= H _]. by apply hex_high_digit_not_E in H.
Qed.

(** C5: what the scanner records for a read that succeeds never equals
    what it records for a read that fails, whatever the bytes of the value
    and whatever the message of the failure: for any two guarded reads
    (lines 94-97 over [get_storage_at]) of which the StorageReader answers
    the first with a value and fails the second, both return, the first
    the hex string of the value and the second the error string of the
    message, and the two recorded strings differ. *)
Theorem value_outcome_ne_error_outcome (env : Env)
    (address address' : string) (idx idx' b b' : Z) (w w' : World)
    (raw : list byte) (msg : string) :
  storage env (w_calls w) (address, idx, b) = inl raw →
  storage env (w_calls w') (address', idx', b') = inr msg →
  ∃ val err,
    (Scanner.read_sample env address idx b w).1 = Ret val ∧
    (Scanner.read_sample env address' idx' b' w').1 = Ret err ∧
    val = Hex.HexBytes_hex (hex_0x env) raw ∧
    err = "ERROR:" +:+ msg ∧
    val ≠ err.
Proof.
  intros Hval Herr. rewrite !read_sample_run, Hval, Herr.
  eexists _, _. repeat split.
  apply (hex_ne_error_value (hex_0x env) raw (Failure msg)).
Qed.

Lemma value_outcome_ne_error_outcome_witness :
  let env := {| globals := module_globals "http://localhost:8545";
                storage := timeout_at_1500;
                hex_0x := true; web3_is_address := fun _ => true;
                web3_to_checksum_address := fun a => a;
                parse_slots := fun _ => Ret [("owner", 0)];
                rpc_connected := fun _ _ => true;
                rpc_chain_id := Ret 1 |} in
  ∃ val err,
    (Scanner.read_sample env "0x00" 0 1000 world0).1 = Ret val ∧
    (Scanner.read_sample env "0x00" 0 1500 world0).1 = Ret err ∧
    val = Hex.HexBytes_hex true [x01] ∧
    err = "ERROR:" +:+ "timeout" ∧
    val ≠ err.
Proof.
  intros env.
  apply (value_outcome_ne_error_outcome env "0x00" "0x00" 0 0 1000 1500
           world0 world0 [x01] "timeout"); reflexivity.
Defined.

(** ** Input validation *)

(** C8: with [to_block < from_block] or [step <= 0] the program leaves with
    status 1, having printed one complaint and made no StorageReader
    request and no clock reading. *)
Theorem main_rejects_bad_range (env : Env) (args : Args) (w : World) :
  a_to_block args < a_from_block args ∨ a_step args ≤ 0 →
  (Report.main env args w).1 = Exit 1 ∧
  Report.exit_status (Report.main env args w).1 ≠ 0 ∧
  w_calls (Report.main env args w).2 = w_calls w ∧
  w_clock (Report.main env args w).2 = w_clock w ∧
  ∃ complaint, w_stdout (Report.main env args w).2 = w_stdout w ++ [complaint].
Proof.
  intros Hbad. unfold Report.main.
  unfold mbind at 1.
  destruct (Z.ltb_spec (a_to_block args) (a_from_block args)) as [Hlt|Hge].
  { cbn. repeat split; try done. by eexists. }
  unfold mret at 1. unfold mbind at 1.
  destruct (Z.leb_spec (a_step args) 0) as [Hle|Hgt]; [|lia].
  cbn. repeat split; try done. by eexists.
Qed.

Lemma main_rejects_bad_range_witness :
  let env := {| globals := module_globals "http://localhost:8545";
                storage := fun _ _ => inl [];
                hex_0x := true;
                web3_is_address := fun _ => true;
                web3_to_checksum_address := fun a => a;
                parse_slots := fun _ => Ret [("owner", 0)];
                rpc_connected := fun _ _ => true;
                rpc_chain_id := Ret 1 |} in
  let args := {| a_rpc := "http://localhost:8545"; a_address := "0x00";
                 a_from_block := 2000; a_to_block := 1000; a_step := 500;
                 a_slot := Some ["owner:0x0"]; a_manifest := None;
                 a_timeout := 30; a_json := false |} in
  (a_to_block args < a_from_block args ∨ a_step args ≤ 0) ∧
  (Report.main env args world0).1 = Exit 1 ∧
  Report.exit_status (Report.main env args world0).1 ≠ 0 ∧
  w_calls (Report.main env args world0).2 = w_calls world0 ∧
  w_clock (Report.main env args world0).2 = w_clock world0 ∧
  ∃ complaint,
    w_stdout (Report.main env args world0).2 = w_stdout world0 ++ [complaint].
Proof.
  intros env args.
  assert (Hbad : a_to_block args < a_from_block args ∨ a_step args ≤ 0)
    by (left; simpl; lia).
  split; [exact Hbad|].
  exact (main_rejects_bad_range env args world0 Hbad).
Defined.

(** ** The report reduction *)

Section DictFacts.

Context {V : Type}.

Lemma dict_get_first (k : string) (v : V) (d : dict V) :
  NoDup (Dict.keys d) → (k, v) ∈ d → Dict.get k d = Some v.
Proof.
  unfold Dict.keys. induction d as [|[k' v'] rest IH]; simpl.
  - intros _ Hin. by apply elem_of_nil in Hin.
  - intros Hnd Hin. apply NoDup_cons in Hnd as [Hk' Hnd].
    apply elem_of_cons in Hin as [[= -> ->]|Hin].
    + by rewrite decide_True.
    + rewrite decide_False; [by apply IH|].
      intros ->. apply Hk'. apply list_elem_of_fmap. by exists (k', v).
Qed.

Lemma dict_set_fresh (k : string) (v : V) (d : dict V) :
  k ∉ Dict.keys d → Dict.set k v d = d ++ [(k, v)].
Proof.
  unfold Dict.keys. induction d as [|[k' v'] rest IH]; simpl; [done|].
  intros Hk. apply not_elem_of_cons in Hk as [Hne Hk].
  rewrite decide_False by done. by rewrite IH.
Qed.

End DictFacts.

Lemma print_prints_only (l : line) : prints_only (print l).
Proof. intros w. by eexists _, _. Qed.

Lemma bind_prints_only {A B} (m : M A) (f : A → M B) :
  prints_only m → (∀ a, prints_only (f a)) → prints_only (mbind m f).
Proof.
  intros Hm Hf w. destruct (Hm w) as (a & w1 & E1 & Hc1 & Ht1).
  destruct (Hf a w1) as (b & w2 & E2 & Hc2 & Ht2).
  exists b, w2. unfold mbind. rewrite E1, E2. split; [done|]. split; congruence.
Qed.

Lemma for_each_prints_only {X S} (xs : list X) (body : X → S → M S) :
  (∀ x s, prints_only (body x s)) → ∀ s, prints_only (for_each xs body s).
Proof.
  intros Hbody. induction xs as [|x rest IH]; intros s; simpl.
  - intros w. by eexists _, _.
  - apply bind_prints_only; [apply Hbody | apply IH].
Qed.

Lemma label_lines_prints_only (lbl : string) (changes : list obs) :
  prints_only (Report.label_lines lbl changes).
Proof.
  unfold Report.label_lines.
  destruct (Z.eqb_spec (Z.of_nat (length changes)) 1) as [Hlen|_].
  - destruct changes as [|[blk val] rest]; [simpl in Hlen; lia|].
    apply print_prints_only.
  - apply bind_prints_only; [apply print_prints_only|]. intros _.
    apply for_each_prints_only. intros c []. apply print_prints_only.
Qed.

Section ReportFacts.

Import Report.

Lemma keys_change_points_of (d : dict (list obs)) :
  Dict.keys (change_points_of d) = Dict.keys d.
Proof.
  unfold Dict.keys, change_points_of. induction d as [|[k v] rest IH];
    [done | simpl; f_equal; exact IH].
Qed.

Lemma transitions_nonneg (cps : list obs) : 0 ≤ transitions cps.
Proof. unfold transitions. lia. Qed.

Lemma sum_transitions_nonneg (r : dict (list obs)) : 0 ≤ sum_transitions r.
Proof.
  induction r as [|p rest IH]; simpl; [done|].
  pose proof (transitions_nonneg p.2). lia.
Qed.

Lemma sum_transitions_zero (r : dict (list obs)) :
  sum_transitions r = 0 ↔ Forall (fun p => (length p.2 ≤ 1)%nat) r.
Proof.
  induction r as [|p rest IH]; simpl.
  - split; [constructor | done].
  - pose proof (transitions_nonneg p.2) as H1.
    pose proof (sum_transitions_nonneg rest) as H2.
    rewrite Forall_cons, <- IH. unfold transitions in *.
    change (foldr (fun (p : string * list obs) acc => Z.max 0 (Z.of_nat (length p.2) - 1) + acc) 0 rest)
      with (sum_transitions rest) in *.
    lia.
Qed.

(** The loop of lines 174-183, started after the labels of [pre]. *)
Lemma report_loop (timeline : dict (list obs)) :
  NoDup (Dict.keys timeline) →
  ∀ (post pre : dict (list obs)) (total : Z) (w : World),
    timeline = pre ++ post →
    ∃ w',
      for_each (Dict.keys post) (report_label timeline)
               (change_points_of pre, total) w
      = (Ret (change_points_of timeline,
              total + sum_transitions (change_points_of post)), w') ∧
      w_calls w' = w_calls w ∧ w_clock w' = w_clock w.
Proof.
  intros Hnd. induction post as [|[k series] post IH]; intros pre total w ->.
  - simpl. exists w. rewrite app_nil_r in *. unfold mret.
    by rewrite Z.add_0_r.
  - simpl. unfold mbind at 1. unfold report_label at 1.
    rewrite (dict_get_first k series) by (done || set_solver).
    destruct (label_lines_prints_only k (Summarizer.summarize_changes series) w)
      as ([] & w1 & E1 & Hc1 & Ht1).
    unfold mbind at 1. rewrite E1. unfold mret at 1. simpl fst. simpl snd.
    rewrite dict_set_fresh.
    2:{ rewrite keys_change_points_of. unfold Dict.keys in *.
        rewrite fmap_app in Hnd. apply NoDup_app in Hnd as (_ & Hdisj & _).
        intros Hin. apply (Hdisj k Hin). simpl. left. }
    change (change_points_of pre ++ [(k, Summarizer.summarize_changes series)])
      with (change_points_of pre ++ change_points_of [(k, series)]).
    unfold change_points_of at 1 2. rewrite <- map_app.
    fold (change_points_of (pre ++ [(k, series)])).
    destruct (IH (pre ++ [(k, series)])
                 (total + Z.max 0 (Z.of_nat (length (Summarizer.summarize_changes series)) - 1))
                 w1) as (w2 & E2 & Hc2 & Ht2).
    { by rewrite <- app_assoc. }
    exists w2. rewrite E2. split; [|split; congruence].
    do 3 f_equal. unfold transitions. lia.
Qed.

End ReportFacts.

(** C7: the report assembled from the timelines maps every label to its
    change points; [total_changes] is the sum over the labels of
    [max(0, len(change_points) - 1)]; it is 0 exactly when every label has
    one change point; and the verdict is [total_changes == 0].  The
    timelines are those of a scan: one per label, none of them empty. *)
Theorem assemble_change_report (timeline : dict (list obs)) (w : World) :
  NoDup (Dict.keys timeline) →
  Forall (fun p => p.2 ≠ []) timeline →
  ∃ change_report total_changes ok w',
    Report.assemble timeline w = (Ret (change_report, total_changes, ok), w') ∧
    change_report = Report.change_points_of timeline ∧
    total_changes = Report.sum_transitions change_report ∧
    (total_changes = 0 ↔
     Forall (fun p => length p.2 = 1%nat) change_report) ∧
    ok = (total_changes =? 0).
Proof.
  intros Hnd Hne.
  destruct (report_loop timeline Hnd timeline [] 0 w eq_refl)
    as (w' & E & _ & _).
  exists (Report.change_points_of timeline),
         (Report.sum_transitions (Report.change_points_of timeline)),
         (Report.sum_transitions (Report.change_points_of timeline) =? 0), w'.
  split.
  { unfold Report.assemble, mbind.
    match goal with
    | |- context [for_each ?ks ?body ?s w] =>
        change (for_each ks body s w)
          with (for_each (Dict.keys timeline) (Report.report_label timeline)
                         (Report.change_points_of [], 0) w)
    end.
    rewrite E. reflexivity. }
  split; [done|]. split; [done|]. split; [|done].
  rewrite sum_transitions_zero. unfold Report.change_points_of.
  rewrite !Forall_fmap, !Forall_forall.
  split; intros H p Hp; specialize (H p Hp); simpl in *; [|lia].
  rewrite Forall_forall in Hne. specialize (Hne p Hp).
  apply summarize_changes_nonempty in Hne.
  destruct (Summarizer.summarize_changes p.2); simpl in *; [done | lia].
Qed.

Lemma assemble_change_report_witness :
  let timeline : dict (list obs) :=
    [("owner", [(1000, "0x01"); (1500, "0x01"); (2000, "0x02")]);
     ("admin", [(1000, "0xaa"); (1500, "0xaa"); (2000, "0xaa")])] in
  NoDup (Dict.keys timeline) ∧
  Forall (fun p => p.2 ≠ []) timeline ∧
  ∃ change_report total_changes ok w',
    Report.assemble timeline world0
    = (Ret (change_report, total_changes, ok), w') ∧
    change_report = Report.change_points_of timeline ∧
    total_changes = Report.sum_transitions change_report ∧
    (total_changes = 0 ↔
     Forall (fun p => length p.2 = 1%nat) change_report) ∧
    ok = (total_changes =? 0).
Proof.
  intros timeline.
  assert (Hnd : NoDup (Dict.keys timeline)).
  { apply (bool_decide_unpack _). vm_compute. exact I. }
  assert (Hne : Forall (fun p => p.2 ≠ []) timeline).
  { repeat constructor; discriminate. }
  split; [exact Hnd|]. split; [exact Hne|].
  exact (assemble_change_report timeline world0 Hnd Hne).
Defined.

(** ** The scan and the progress line *)

Section ScanFacts.

Import Scanner.

(** [app.py] binds no [start_time]. *)
Lemma module_globals_start_time (default_rpc : string) :
  module_globals default_rpc !! "start_time" = None.
Proof. reflexivity. Qed.

(** Without a global [start_time] the progress line raises [NameError],
    after one clock reading and before anything is printed. *)
Lemma progress_name_error (env : Env) (i b total : Z) (w : World) :
  globals env !! "start_time" = None →
  progress env i b total w
  = (Raise (NameError "start_time"),
     {| w_calls := w_calls w; w_clock := S (w_clock w);
        w_stdout := w_stdout w |}).
Proof.
  intros Hg. unfold progress, mbind, time_time, load_global.
  by rewrite Hg.
Qed.

(** On every valid range the scan therefore stops in the first turn of its
    loop, before the first StorageReader request. *)
Lemma scan_timeline_name_error (env : Env) (address : string)
    (slots : list Slot) (start_block end_block step : Z) (w : World) :
  globals env !! "start_time" = None →
  start_block ≤ end_block → 0 < step →
  scan_timeline env address slots start_block end_block step w
  = (Raise (NameError "start_time"),
     {| w_calls := w_calls w; w_clock := S (w_clock w);
        w_stdout := w_stdout w |}).
Proof.
  intros Hg Hle Hpos. unfold scan_timeline.
  rewrite sampled_blocks_valid by done.
  assert (Hq : 0 ≤ (end_block - start_block) / step) by (apply Z.div_pos; lia).
  replace (Z.to_nat ((end_block - start_block) / step + 1))
    with (S (Z.to_nat ((end_block - start_block) / step))) by lia.
  unfold Range.arith_seq. simpl seq. simpl map.
  unfold mbind at 1. unfold lift. simpl enumerate. simpl for_each.
  unfold mbind at 1. unfold mbind at 1.
  by rewrite progress_name_error.
Qed.

End ScanFacts.

Section DictUpdateFacts.

Context {V : Type}.

Lemma dict_get_set_eq (k : string) (v : V) (d : dict V) :
  Dict.get k (Dict.set k v d) = Some v.
Proof.
  induction d as [|[k' v'] rest IH]; simpl.
  - by rewrite decide_True.
  - destruct (decide (k = k')) as [->|Hne]; simpl.
    + by rewrite decide_True.
    + by rewrite decide_False.
Qed.

Lemma dict_get_set_ne (k k' : string) (v : V) (d : dict V) :
  k ≠ k' → Dict.get k' (Dict.set k v d) = Dict.get k' d.
Proof.
  intros Hne. induction d as [|[k0 v0] rest IH]; simpl.
  - by rewrite decide_False.
  - destruct (decide (k = k0)) as [->|Hne0]; simpl.
    + by rewrite !decide_False.
    + by rewrite IH.
Qed.

Lemma dict_get_is_Some (k : string) (d : dict V) :
  is_Some (Dict.get k d) ↔ k ∈ Dict.keys d.
Proof.
  unfold Dict.keys. induction d as [|[k' v'] rest IH]; simpl.
  - rewrite elem_of_nil. split; [by intros [? ?] | done].
  - rewrite elem_of_cons. destruct (decide (k = k')) as [->|Hne].
    + split; [by left | by eexists].
    + rewrite IH. split; [by right | by intros [?|?]].
Qed.

Lemma dict_keys_set_present (k : string) (v : V) (d : dict V) :
  k ∈ Dict.keys d → Dict.keys (Dict.set k v d) = Dict.keys d.
Proof.
  unfold Dict.keys. induction d as [|[k' v'] rest IH]; simpl.
  - by intros ?%elem_of_nil.
  - destruct (decide (k = k')) as [->|Hne]; simpl; [done|].
    intros [?|Hin]%elem_of_cons; [done|]. f_equal. by apply IH.
Qed.

Lemma dict_keys_set (k : string) (v : V) (d : dict V) :
  ∀ k', k' ∈ Dict.keys (Dict.set k v d) ↔ k' = k ∨ k' ∈ Dict.keys d.
Proof.
  intros k'. destruct (decide (k ∈ Dict.keys d)) as [Hin|Hout].
  - rewrite dict_keys_set_present by done.
    split; [by right | by intros [->|?]].
  - rewrite dict_set_fresh by done. unfold Dict.keys.
    rewrite fmap_app, elem_of_app. simpl. rewrite list_elem_of_singleton.
    tauto.
Qed.

End DictUpdateFacts.

(** ** The scan once [start_time] is bound *)

Section ScanRun.

Import Scanner ScanSpec.

Variable env : Env.
Variable address : string.

Lemma samples_app (vs1 vs2 : list (Slot * Z)) :
  ∀ history,
    samples env address (vs1 ++ vs2) history
    = samples env address vs1 history
      ++ samples env address vs2 (history ++ requests address vs1).
Proof.
  induction vs1 as [|v vs1 IH]; intros history; simpl.
  - by rewrite app_nil_r.
  - rewrite IH. by rewrite <- app_assoc.
Qed.

Lemma timeline_of_app (lbl : string) (ss1 ss2 : list (string * obs)) :
  timeline_of lbl (ss1 ++ ss2) = timeline_of lbl ss1 ++ timeline_of lbl ss2.
Proof. unfold timeline_of. by rewrite filter_app, fmap_app. Qed.

Lemma timeline_of_cons (lbl : string) (x : string * obs)
    (ss : list (string * obs)) :
  timeline_of lbl (x :: ss)
  = if decide (x.1 = lbl) then x.2 :: timeline_of lbl ss
    else timeline_of lbl ss.
Proof.
  unfold timeline_of. rewrite filter_cons. by destruct (decide (x.1 = lbl)).
Qed.

Lemma requests_app (vs1 vs2 : list (Slot * Z)) :
  requests address (vs1 ++ vs2) = requests address vs1 ++ requests address vs2.
Proof. unfold requests. apply map_app. Qed.

Lemma scan_block_cons (b : Z) (s : Slot) (rest : list Slot)
    (out : dict (list obs)) :
  scan_block env address (s :: rest) b out
  = mbind (mbind (read_sample env address s.2 b)
                 (fun val => append_obs out s.1 (b, val)))
          (fun out1 => scan_block env address rest b out1).
Proof. reflexivity. Qed.

(** One block: every slot is queried in order, each answer is appended to
    its label's timeline, and nothing is raised. *)
Lemma scan_block_run (b : Z) (slots : list Slot) :
  ∀ (out : dict (list obs)) (w : World),
    (∀ s, s ∈ slots → s.1 ∈ Dict.keys out) →
    ∃ out',
      scan_block env address slots b out w
      = (Ret out',
         {| w_calls := w_calls w
                       ++ requests address (map (fun s => (s, b)) slots);
            w_clock := w_clock w; w_stdout := w_stdout w |}) ∧
      Dict.keys out' = Dict.keys out ∧
      ∀ lbl,
        Dict.get lbl out'
        = (fun series =>
             series ++ timeline_of lbl
                         (samples env address (map (fun s => (s, b)) slots)
                                  (w_calls w)))
          <$> Dict.get lbl out.
Proof.
  induction slots as [|s rest IH]; intros out w Hkeys.
  - exists out. simpl. unfold mret. rewrite app_nil_r.
    split; [by destruct w|]. split; [done|].
    intros lbl. destruct (Dict.get lbl out); simpl; [|done].
    by rewrite app_nil_r.
  - rewrite scan_block_cons. unfold mbind at 1. unfold mbind at 1.
    rewrite read_sample_run.
    assert (Hs : s.1 ∈ Dict.keys out) by (apply Hkeys; left).
    destruct (proj2 (dict_get_is_Some s.1 out) Hs) as [series Hget].
    unfold append_obs. rewrite Hget. unfold mret at 1.
    set (val := match storage env (w_calls w) (address, s.2, b) with
                | inl raw => Hex.HexBytes_hex (hex_0x env) raw
                | inr msg => "ERROR:" +:+ msg
                end).
    set (out1 := Dict.set s.1 (series ++ [(b, val)]) out).
    set (w1 := {| w_calls := w_calls w ++ [(address, s.2, b)];
                  w_clock := w_clock w; w_stdout := w_stdout w |}).
    assert (Hk1 : Dict.keys out1 = Dict.keys out)
      by (by apply dict_keys_set_present).
    destruct (IH out1 w1) as (out' & E & Hk & Hg).
    { intros s' Hs'. rewrite Hk1. apply Hkeys. by right. }
    exists out'. split.
    { etrans; [exact E|]. simpl. by rewrite <- app_assoc. }
    split; [congruence|].
    intros lbl. rewrite Hg. simpl samples. rewrite timeline_of_cons. simpl.
    fold val. unfold out1.
    destruct (decide (s.1 = lbl)) as [<-|Hne].
    + rewrite dict_get_set_eq, Hget. simpl. by rewrite <- app_assoc.
    + by rewrite dict_get_set_ne.
Qed.

(** With [start_time] bound to a number the progress line is printed and
    nothing else happens. *)
Lemma progress_run (t : num) (i b total : Z) (w : World) :
  globals env !! "start_time" = Some (PNum t) →
  ∃ l, progress env i b total w
       = (Ret tt, {| w_calls := w_calls w; w_clock := S (w_clock w);
                     w_stdout := w_stdout w ++ [l] |}).
Proof.
  intros Hg. unfold progress, mbind, time_time, load_global.
  rewrite Hg. simpl. by eexists.
Qed.

(** The loop over the blocks, started at index [i]. *)
Lemma scan_blocks_run (t : num) (slots : list Slot) (total : Z)
    (blocks : list Z) :
  globals env !! "start_time" = Some (PNum t) →
  ∀ (i : Z) (out : dict (list obs)) (w : World),
    (∀ s, s ∈ slots → s.1 ∈ Dict.keys out) →
    ∃ out' w',
      for_each (enumerate i blocks)
        (fun (ib : Z * Z) out =>
           progress env ib.1 ib.2 total >>
           scan_block env address slots ib.2 out)
        out w
      = (Ret out', w') ∧
      Dict.keys out' = Dict.keys out ∧
      (∀ lbl,
         Dict.get lbl out'
         = (fun series =>
              series ++ timeline_of lbl
                          (samples env address (visits slots blocks)
                                   (w_calls w)))
           <$> Dict.get lbl out) ∧
      w_calls w' = w_calls w ++ requests address (visits slots blocks) ∧
      w_clock w' = (w_clock w + length blocks)%nat ∧
      length (w_stdout w') = (length (w_stdout w) + length blocks)%nat.
Proof.
  intros Hg. induction blocks as [|b rest IH]; intros i out w Hkeys.
  - exists out, w. simpl. unfold mret. rewrite app_nil_r.
    split; [done|]. split; [done|]. split; [|split; [done | split; lia]].
    intros lbl. destruct (Dict.get lbl out); simpl; [|done].
    by rewrite app_nil_r.
  - simpl enumerate. simpl for_each.
    destruct (progress_run t i b total w Hg) as (l & Ep).
    set (w0 := {| w_calls := w_calls w; w_clock := S (w_clock w);
                  w_stdout := w_stdout w ++ [l] |}) in Ep.
    destruct (scan_block_run b slots out w0 Hkeys) as (out1 & Eb & Hk1 & Hg1).
    set (w1 := {| w_calls := w_calls w0
                             ++ requests address (map (fun s => (s, b)) slots);
                  w_clock := w_clock w0; w_stdout := w_stdout w0 |}) in Eb.
    destruct (IH (i + 1) out1 w1) as (out' & w' & E & Hk & Hgl & Hc & Ht & Hs).
    { intros s Hs. rewrite Hk1. by apply Hkeys. }
    exists out', w'. split.
    { unfold mbind at 1. unfold mbind at 1. simpl fst. simpl snd.
      rewrite Ep. rewrite Eb. exact E. }
    split; [congruence|]. split; [|split; [|split]].
    + intros lbl. rewrite Hgl, Hg1. simpl visits.
      rewrite samples_app, timeline_of_app.
      destruct (Dict.get lbl out); simpl; [|done].
      by rewrite <- app_assoc.
    + rewrite Hc. simpl visits. rewrite requests_app. simpl.
      by rewrite <- app_assoc.
    + rewrite Ht. simpl. lia.
    + rewrite Hs. simpl. rewrite length_app. simpl. lia.
Qed.

End ScanRun.

Section ScanTimelineRun.

Import Scanner ScanSpec.

Lemma init_out_fold (slots : list Slot) :
  ∀ d : dict (list obs),
    (∀ k v, Dict.get k d = Some v → v = []) →
    let d' := fold_left (fun d (s : Slot) => Dict.set s.1 [] d) slots d in
    (∀ k, k ∈ Dict.keys d' ↔ k ∈ Dict.keys d ∨ k ∈ slots.*1) ∧
    (∀ k v, Dict.get k d' = Some v → v = []).
Proof.
  induction slots as [|s rest IH]; intros d Hd; simpl.
  - split; [|done]. intros k. rewrite elem_of_nil. tauto.
  - destruct (IH (Dict.set s.1 [] d)) as [Hk Hv].
    { intros k v. destruct (decide (s.1 = k)) as [<-|Hne].
      - rewrite dict_get_set_eq. congruence.
      - rewrite dict_get_set_ne by done. apply Hd. }
    split; [|done]. intros k. rewrite Hk, dict_keys_set, elem_of_cons. tauto.
Qed.

Lemma init_out_keys (slots : list Slot) (k : string) :
  k ∈ Dict.keys (init_out slots) ↔ k ∈ slots.*1.
Proof.
  destruct (init_out_fold slots []) as [Hk _]; [done|].
  unfold init_out. rewrite Hk. unfold Dict.keys. simpl.
  rewrite elem_of_nil. tauto.
Qed.

Lemma init_out_get (slots : list Slot) (k : string) :
  k ∈ slots.*1 → Dict.get k (init_out slots) = Some [].
Proof.
  intros Hk. apply init_out_keys, dict_get_is_Some in Hk as [v Hv].
  destruct (init_out_fold slots []) as [_ Hnil]; [done|].
  rewrite Hv. f_equal. by apply (Hnil k).
Qed.

(** With [start_time] bound to a number, [scan_timeline] returns: it makes
    the requests of every visit in order and files every recorded outcome,
    value or error, under the label of its slot. *)
Lemma scan_timeline_run (env : Env) (address : string) (slots : list Slot)
    (start_block end_block step : Z) (blocks : list Z) (t : num) (w : World) :
  globals env !! "start_time" = Some (PNum t) →
  Range.sampled_blocks start_block end_block step = Ret blocks →
  ∃ out w',
    scan_timeline env address slots start_block end_block step w
    = (Ret out, w') ∧
    Dict.keys out = Dict.keys (init_out slots) ∧
    (∀ lbl, lbl ∈ slots.*1 →
       Dict.get lbl out
       = Some (timeline_of lbl
                 (samples env address (visits slots blocks) (w_calls w)))) ∧
    w_calls w' = w_calls w ++ requests address (visits slots blocks).
Proof.
  intros Hg Hb. unfold scan_timeline. rewrite Hb.
  destruct (scan_blocks_run env address t slots (Z.of_nat (length blocks))
              blocks Hg 1 (init_out slots) w)
    as (out & w' & E & Hk & Hget & Hc & _).
  { intros s Hs. apply init_out_keys. apply list_elem_of_fmap. by exists s. }
  exists out, w'. split; [exact E|]. split; [done|]. split; [|done].
  intros lbl Hl. by rewrite Hget, init_out_get.
Qed.

End ScanTimelineRun.

Section SamplesFacts.

Import ScanSpec.

Variable env : Env.
Variable address : string.

(** The [k]-th recorded observation is the outcome of the [k]-th request,
    answered after the requests before it: the hex value of the answer, or
    ["ERROR:"] and the failure's description.  No other answer enters it. *)
Lemma samples_lookup (vs : list (Slot * Z)) :
  ∀ (history : list Call) (k : nat),
    samples env address vs history !! k
    = (fun v : Slot * Z =>
         (v.1.1,
          (v.2,
           outcome_of env
             (storage env (history ++ requests address (take k vs))
                      (address, v.1.2, v.2)))))
      <$> vs !! k.
Proof.
  induction vs as [|v rest IH]; intros history k; [by destruct k|].
  destruct k as [|k]; simpl.
  - by rewrite app_nil_r.
  - rewrite IH. by rewrite <- app_assoc.
Qed.

Lemma block_timeline_blocks (lbl : string) (b : Z) (slots : list Slot) :
  ∀ history,
    (timeline_of lbl
       (samples env address (map (fun s : Slot => (s, b)) slots) history)).*1
    = replicate (length (filter (fun s : Slot => s.1 = lbl) slots)) b.
Proof.
  induction slots as [|s rest IH]; intros history; [done|].
  simpl map. simpl samples. rewrite timeline_of_cons, filter_cons. simpl.
  destruct (decide (s.1 = lbl)); simpl; by rewrite IH.
Qed.

(** The blocks of one label's timeline: every sampled block, in order, once
    per slot carrying the label. *)
Lemma timeline_blocks (lbl : string) (slots : list Slot) (blocks : list Z) :
  ∀ history,
    (timeline_of lbl (samples env address (visits slots blocks) history)).*1
    = flat_map
        (fun b =>
           replicate (length (filter (fun s : Slot => s.1 = lbl) slots)) b)
        blocks.
Proof.
  induction blocks as [|b rest IH]; intros history; [done|].
  simpl visits. rewrite samples_app, timeline_of_app, fmap_app.
  rewrite block_timeline_blocks, IH. reflexivity.
Qed.

End SamplesFacts.

(** ** The scan as the program runs it *)

(** C1: on the valid input of one slot over the range (1000, 1000, 500) the
    scan does not return its timelines: the progress line of the first
    block reads [start_time], which the module never binds, and the
    [NameError] ends [scan_timeline] after one clock reading, before any
    StorageReader request and before anything is printed. *)
Theorem scan_timeline_progress_raises (default_rpc : string) (env : Env) :
  Scanner.scan_timeline (running default_rpc env) "0x00" [("owner", 0)]
                        1000 1000 500 world0
  = (Raise (NameError "start_time"),
     {| w_calls := []; w_clock := 1; w_stdout := [] |}).
Proof. apply scan_timeline_name_error; [reflexivity | lia | lia]. Qed.

(** A failure at one request enters the observation of that request and
    no other: against a reader [rd] that differs from the StorageReader at
    that request only, every other observation is the same. *)
Lemma samples_off_point (env : Env)
    (rd : list Call → Call → list byte + string) (address : string)
    (vs : list (Slot * Z)) (history : list Call) (k : nat) (v : Slot * Z)
    (msg : string) :
  vs !! k = Some v →
  storage env (history ++ ScanSpec.requests address (take k vs))
          (address, v.1.2, v.2) = inr msg →
  (∀ h c,
     (h, c) ≠ (history ++ ScanSpec.requests address (take k vs),
               (address, v.1.2, v.2)) →
     rd h c = storage env h c) →
  ScanSpec.samples env address vs history !! k
  = Some (v.1.1, (v.2, "ERROR:" +:+ msg)) ∧
  ∀ j, j ≠ k →
    ScanSpec.samples env address vs history !! j
    = ScanSpec.samples (with_storage rd env) address vs history !! j.
Proof.
  intros Hv Hfail Hrd. split.
  - rewrite samples_lookup, Hv. cbn [fmap option_fmap option_map].
    by rewrite Hfail.
  - intros j Hj. rewrite !samples_lookup.
    destruct (vs !! j) as [vj|] eqn:Hvj; [|done].
    cbn [fmap option_fmap option_map]. do 3 f_equal.
    change (storage (with_storage rd env)) with rd.
    unfold ScanSpec.outcome_of. change (hex_0x (with_storage rd env))
      with (hex_0x env).
    rewrite Hrd; [done|]. intros [= Hh _].
    apply (f_equal length) in Hh. unfold ScanSpec.requests in Hh.
    rewrite !length_app, !length_map, !length_take in Hh.
    apply lookup_lt_Some in Hv, Hvj. lia.
Qed.

(** C6: a failure of the StorageReader at one request is recorded in-band
    and ends nothing.  Let the reader fail with [msg] at the request [c0]
    made after the requests [h0], and let [rd] be a reader that differs
    from it there only.  Then the slot loop of one block (lines 93-98)
    returns, whatever the reader answers; the observation of the failing
    request is the error string of [msg] under the label of its slot; and
    the observation of every other request is the one the scan with [rd]
    records.  The same holds of the whole scan once [start_time] is
    bound. *)
Theorem scan_reader_failure_in_band (env : Env)
    (rd : list Call → Call → list byte + string) (address : string)
    (slots : list Slot) (h0 : list Call) (c0 : Call) (msg : string) :
  storage env h0 c0 = inr msg →
  (∀ h c, (h, c) ≠ (h0, c0) → rd h c = storage env h c) →
  (∀ (b : Z) (out : dict (list obs)) (w : World) (k : nat) (v : Slot * Z),
     let vs := map (fun s : Slot => (s, b)) slots in
     (∀ s, s ∈ slots → s.1 ∈ Dict.keys out) →
     vs !! k = Some v →
     h0 = w_calls w ++ ScanSpec.requests address (take k vs) →
     c0 = (address, v.1.2, v.2) →
     ∃ out1 out2 w',
       Scanner.scan_block env address slots b out w = (Ret out1, w') ∧
       Scanner.scan_block (with_storage rd env) address slots b out w
       = (Ret out2, w') ∧
       (∀ lbl,
          Dict.get lbl out1
          = (fun series =>
               series ++ ScanSpec.timeline_of lbl
                           (ScanSpec.samples env address vs (w_calls w)))
            <$> Dict.get lbl out) ∧
       (∀ lbl,
          Dict.get lbl out2
          = (fun series =>
               series ++ ScanSpec.timeline_of lbl
                           (ScanSpec.samples (with_storage rd env) address vs
                                             (w_calls w)))
            <$> Dict.get lbl out) ∧
       ScanSpec.samples env address vs (w_calls w) !! k
       = Some (v.1.1, (v.2, "ERROR:" +:+ msg)) ∧
       ∀ j, j ≠ k →
         ScanSpec.samples env address vs (w_calls w) !! j
         = ScanSpec.samples (with_storage rd env) address vs (w_calls w) !! j) ∧
  (∀ (start_block end_block step : Z) (blocks : list Z) (t : num)
     (w : World) (k : nat) (v : Slot * Z),
     let vs := ScanSpec.visits slots blocks in
     globals env !! "start_time" = Some (PNum t) →
     Range.sampled_blocks start_block end_block step = Ret blocks →
     vs !! k = Some v →
     h0 = w_calls w ++ ScanSpec.requests address (take k vs) →
     c0 = (address, v.1.2, v.2) →
     ∃ out1 out2,
       (Scanner.scan_timeline env address slots start_block end_block step
                              w).1 = Ret out1 ∧
       (Scanner.scan_timeline (with_storage rd env) address slots
                              start_block end_block step w).1 = Ret out2 ∧
       (∀ lbl, lbl ∈ slots.*1 →
          Dict.get lbl out1
          = Some (ScanSpec.timeline_of lbl
                    (ScanSpec.samples env address vs (w_calls w)))) ∧
       (∀ lbl, lbl ∈ slots.*1 →
          Dict.get lbl out2
          = Some (ScanSpec.timeline_of lbl
                    (ScanSpec.samples (with_storage rd env) address vs
                                      (w_calls w)))) ∧
       ScanSpec.samples env address vs (w_calls w) !! k
       = Some (v.1.1, (v.2, "ERROR:" +:+ msg)) ∧
       ∀ j, j ≠ k →
         ScanSpec.samples env address vs (w_calls w) !! j
         = ScanSpec.samples (with_storage rd env) address vs (w_calls w) !! j).
Proof.
  intros Hfail Hrd. split.
  - intros b out w k v vs Hkeys Hv -> ->.
    destruct (scan_block_run env address b slots out w Hkeys)
      as (out1 & E1 & _ & Hget1).
    destruct (scan_block_run (with_storage rd env) address b slots out w Hkeys)
      as (out2 & E2 & _ & Hget2).
    destruct (samples_off_point env rd address vs (w_calls w) k v msg
                Hv Hfail Hrd) as [Hk Hother].
    eexists out1, out2, _. split; [exact E1|]. split; [exact E2|]. done.
  - intros start_block end_block step blocks t w k v vs Hg Hb Hv -> ->.
    destruct (scan_timeline_run env address slots start_block end_block step
                blocks t w Hg Hb) as (out1 & w1 & E1 & _ & Hget1 & _).
    destruct (scan_timeline_run (with_storage rd env) address slots
                start_block end_block step blocks t w Hg Hb)
      as (out2 & w2 & E2 & _ & Hget2 & _).
    destruct (samples_off_point env rd address vs (w_calls w) k v msg
                Hv Hfail Hrd) as [Hk Hother].
    exists out1, out2. rewrite E1, E2. done.
Qed.

Lemma scan_reader_failure_in_band_witness :
  let env := with_start_time (Now 0)
               {| globals := module_globals "http://localhost:8545";
                  storage := timeout_at_1500;
                  hex_0x := true; web3_is_address := fun _ => true;
                  web3_to_checksum_address := fun a => a;
                  parse_slots := fun _ => Ret [("owner", 0)];
                  rpc_connected := fun _ _ => true;
                  rpc_chain_id := Ret 1 |} in
  let address := "0x00" in
  let slots : list Slot := [("owner", 0)] in
  let h0 : list Call := [("0x00", 0, 1000)] in
  let c0 : Call := ("0x00", 0, 1500) in
  let msg := "timeout" in
  let rd : list Call → Call → list byte + string :=
    fun h c => if bool_decide ((h, c) = (h0, c0)) then inl [x01]
               else timeout_at_1500 h c in
  (let b := 1500 in
   let out : dict (list obs) := [("owner", [(1000, "0x01")])] in
   let w := {| w_calls := h0; w_clock := 2; w_stdout := [] |} in
   let k := 0%nat in
   let v : Slot * Z := (("owner", 0), 1500) in
   let vs := map (fun s : Slot => (s, b)) slots in
     ∃ out1 out2 w',
       Scanner.scan_block env address slots b out w = (Ret out1, w') ∧
       Scanner.scan_block (with_storage rd env) address slots b out w
       = (Ret out2, w') ∧
       (∀ lbl,
          Dict.get lbl out1
          = (fun series =>
               series ++ ScanSpec.timeline_of lbl
                           (ScanSpec.samples env address vs (w_calls w)))
            <$> Dict.get lbl out) ∧
       (∀ lbl,
          Dict.get lbl out2
          = (fun series =>
               series ++ ScanSpec.timeline_of lbl
                           (ScanSpec.samples (with_storage rd env) address vs
                                             (w_calls w)))
            <$> Dict.get lbl out) ∧
       ScanSpec.samples env address vs (w_calls w) !! k
       = Some (v.1.1, (v.2, "ERROR:" +:+ msg)) ∧
       ∀ j, j ≠ k →
         ScanSpec.samples env address vs (w_calls w) !! j
         = ScanSpec.samples (with_storage rd env) address vs (w_calls w) !! j) ∧
  (let start_block := 1000 in
   let end_block := 2000 in
   let step := 500 in
   let w := world0 in
   let k := 1%nat in
   let v : Slot * Z := (("owner", 0), 1500) in
   let vs := ScanSpec.visits slots [1000; 1500; 2000] in
     ∃ out1 out2,
       (Scanner.scan_timeline env address slots start_block end_block step
                              w).1 = Ret out1 ∧
       (Scanner.scan_timeline (with_storage rd env) address slots
                              start_block end_block step w).1 = Ret out2 ∧
       (∀ lbl, lbl ∈ slots.*1 →
          Dict.get lbl out1
          = Some (ScanSpec.timeline_of lbl
                    (ScanSpec.samples env address vs (w_calls w)))) ∧
       (∀ lbl, lbl ∈ slots.*1 →
          Dict.get lbl out2
          = Some (ScanSpec.timeline_of lbl
                    (ScanSpec.samples (with_storage rd env) address vs
                                      (w_calls w)))) ∧
       ScanSpec.samples env address vs (w_calls w) !! k
       = Some (v.1.1, (v.2, "ERROR:" +:+ msg)) ∧
       ∀ j, j ≠ k →
         ScanSpec.samples env address vs (w_calls w) !! j
         = ScanSpec.samples (with_storage rd env) address vs (w_calls w) !! j).
Proof.
  intros env address slots h0 c0 msg rd.
  destruct (scan_reader_failure_in_band env rd address slots h0 c0 msg)
    as [HA HB].
  - reflexivity.
  - intros h c Hne. unfold rd. by rewrite bool_decide_false.
  - split.
    + intros b out w k v vs. apply (HA b out w k v); try reflexivity.
      intros s Hs. apply list_elem_of_singleton in Hs as ->.
      apply list_elem_of_singleton. reflexivity.
    + intros start_block end_block step w k v vs.
      apply (HB start_block end_block step [1000; 1500; 2000] (Now 0) w k v);
        reflexivity.
Defined.

(** C10: with two slots under the one label ["a"], the scan over
    (1000, 2000, 500) returns no timeline at all: it is ended by the
    [NameError] of the progress line.  Only with [start_time] bound does it
    return the single timeline of ["a"], two entries per sampled block. *)
Theorem scan_timeline_duplicate_label_raises
    (default_rpc : string) (env : Env) (t : num) :
  let env' := with_storage (fun _ c => inl (if c.1.2 =? 0 then [x00] else [x01]))
                           (running default_rpc env) in
  Scanner.scan_timeline env' "0x00" [("a", 0); ("a", 1)] 1000 2000 500 world0
  = (Raise (NameError "start_time"),
     {| w_calls := []; w_clock := 1; w_stdout := [] |}) ∧
  (Scanner.scan_timeline (with_start_time t env') "0x00" [("a", 0); ("a", 1)]
                         1000 2000 500 world0).1
  = Ret [("a",
          [(1000, Hex.HexBytes_hex (hex_0x env) [x00]);
           (1000, Hex.HexBytes_hex (hex_0x env) [x01]);
           (1500, Hex.HexBytes_hex (hex_0x env) [x00]);
           (1500, Hex.HexBytes_hex (hex_0x env) [x01]);
           (2000, Hex.HexBytes_hex (hex_0x env) [x00]);
           (2000, Hex.HexBytes_hex (hex_0x env) [x01])])].
Proof.
  split.
  - apply scan_timeline_name_error; [reflexivity | lia | lia].
  - reflexivity.
Qed.

(** ** The whole program on a valid command line *)

(** When every check of [main] passes, the run still produces no report:
    the [NameError] of the first progress line leaves [scan_timeline] and
    [main] uncaught, the StorageReader has not been asked anything, and the
    process ends with status 1. *)
Lemma main_valid_input_name_error (default_rpc : string) (env : Env)
    (args : Args) (slots : list Slot) (w : World) :
  a_from_block args ≤ a_to_block args →
  0 < a_step args →
  web3_is_address env (a_address args) = true →
  parse_slots env args = Ret slots →
  Report.starts_with "http://" (a_rpc args)
  || Report.starts_with "https://" (a_rpc args) = true →
  rpc_connected env (a_rpc args) (a_timeout args) = true →
  (∀ code, rpc_chain_id env ≠ Exit code) →
  (Report.main (running default_rpc env) args w).1
  = Raise (NameError "start_time") ∧
  Report.exit_status (Report.main (running default_rpc env) args w).1 = 1 ∧
  w_calls (Report.main (running default_rpc env) args w).2 = w_calls w.
Proof.
  intros Hrange Hstep Haddr Hslots Hurl Hconn Hchain.
  assert (E : ∃ w', Report.main (running default_rpc env) args w
                    = (Raise (NameError "start_time"), w')
                    ∧ w_calls w' = w_calls w).
  { unfold Report.main.
    destruct (Z.ltb_spec (a_to_block args) (a_from_block args)); [lia|].
    destruct (Z.leb_spec (a_step args) 0); [lia|].
    unfold Report.to_checksum. cbn [running web3_is_address parse_slots
      rpc_connected rpc_chain_id web3_to_checksum_address].
    rewrite Haddr, Hslots, Hurl, Hconn.
    unfold mbind, mret, try_except, lift, print. cbn [fst snd].
    destruct (rpc_chain_id env) as [id|e|code] eqn:Hid;
      [| |by destruct (Hchain code)].
    all: unfold time_time; cbn [w_calls w_clock w_stdout];
      rewrite scan_timeline_name_error by (done || reflexivity);
      by eexists. }
  destruct E as (w' & -> & Hc). by repeat split.
Qed.

(** ** From the scan to the report *)

Section ScanOutputFacts.

Import Scanner ScanSpec.

Lemma dict_set_keys_NoDup {V} (k : string) (v : V) (d : dict V) :
  NoDup (Dict.keys d) → NoDup (Dict.keys (Dict.set k v d)).
Proof.
  intros Hnd. destruct (decide (k ∈ Dict.keys d)) as [Hin|Hout].
  - by rewrite dict_keys_set_present.
  - rewrite dict_set_fresh by done. unfold Dict.keys in *.
    rewrite fmap_app. apply NoDup_app. split; [done|]. split.
    + intros x Hx ->%list_elem_of_singleton. done.
    + apply NoDup_singleton.
Qed.

Lemma init_out_NoDup (slots : list Slot) : NoDup (Dict.keys (init_out slots)).
Proof.
  unfold init_out.
  assert (H : ∀ d : dict (list obs), NoDup (Dict.keys d) →
              NoDup (Dict.keys
                       (fold_left (fun d (s : Slot) => Dict.set s.1 [] d)
                                  slots d))).
  { induction slots as [|s rest IH]; intros d Hd; simpl; [done|].
    apply IH. by apply dict_set_keys_NoDup. }
  apply H. constructor.
Qed.

Lemma timeline_of_nonempty (env : Env) (address : string) (lbl : string)
    (slots : list Slot) (blocks : list Z) (history : list Call) :
  lbl ∈ slots.*1 → blocks ≠ [] →
  timeline_of lbl (samples env address (visits slots blocks) history) ≠ [].
Proof.
  intros Hl Hb Hnil.
  pose proof (timeline_blocks env address lbl slots blocks history) as Hblk.
  rewrite Hnil in Hblk. destruct blocks as [|b rest]; [done|].
  apply list_elem_of_fmap in Hl as (s & -> & Hs).
  assert (Hf : s ∈ filter (fun s' : Slot => s'.1 = s.1) slots)
    by (by apply list_elem_of_filter).
  destruct (filter (fun s' : Slot => s'.1 = s.1) slots) as [|s0 l];
    [by apply elem_of_nil in Hf | discriminate].
Qed.

(** On a non-empty block sequence the timelines a completed scan hands to
    the report are those the report reduction expects: one per label, none
    of them empty. *)
Lemma scan_output_well_formed (env : Env) (address : string)
    (slots : list Slot) (start_block end_block step : Z) (blocks : list Z)
    (t : num) (w : World) :
  globals env !! "start_time" = Some (PNum t) →
  Range.sampled_blocks start_block end_block step = Ret blocks →
  blocks ≠ [] →
  ∃ out w',
    scan_timeline env address slots start_block end_block step w
    = (Ret out, w') ∧
    NoDup (Dict.keys out) ∧ Forall (fun p => p.2 ≠ []) out.
Proof.
  intros Hg Hb Hne.
  destruct (scan_timeline_run env address slots start_block end_block step
              blocks t w Hg Hb) as (out & w' & E & Hk & Hget & _).
  exists out, w'. split; [done|].
  assert (Hnd : NoDup (Dict.keys out)) by (rewrite Hk; apply init_out_NoDup).
  split; [done|].
  apply Forall_forall. intros [lbl series] Hin. simpl.
  assert (Hl : lbl ∈ slots.*1).
  { apply init_out_keys. rewrite <- Hk. unfold Dict.keys.
    apply list_elem_of_fmap. by exists (lbl, series). }
  pose proof (dict_get_first lbl series out Hnd Hin) as Hs.
  rewrite (Hget lbl Hl) in Hs. injection Hs as <-.
  by apply timeline_of_nonempty.
Qed.

End ScanOutputFacts.

(** * Further properties of the code *)

(** ** The change summarizer, continued *)

Section SummarizerMoreFacts.

Import Summarizer.

Lemma last_or_cons {A} (x : A) (l : list A) (p q : option A) :
  match last (x :: l) with Some v => Some v | None => p end
  = match last (x :: l) with Some v => Some v | None => q end.
Proof.
  destruct (last (x :: l)) eqn:E; [done|]. by apply last_None in E.
Qed.

(** After the loop, [prev] is the outcome of the last observation seen. *)
Lemma fold_step_prev (series : list obs) :
  ∀ (changes : list obs) (prev : option string),
    (fold_left step series (changes, prev)).2
    = match last series.*2 with Some v => Some v | None => prev end.
Proof.
  induction series as [|[block val] rest IH]; intros changes prev; [done|].
  cbn [fold_left].
  replace (step (changes, prev) (block, val))
    with (if bool_decide (Some val ≠ prev)
          then (changes ++ [(block, val)], Some val) else (changes, prev))
    by reflexivity.
  case_bool_decide as Hne; rewrite IH, !fmap_cons; cbn [snd].
  - destruct rest as [|o rest']; [done|].
    rewrite fmap_cons, last_cons_cons. apply last_or_cons.
  - subst prev.
    destruct rest as [|o rest']; [done|].
    rewrite fmap_cons, last_cons_cons. apply last_or_cons.
Qed.

Lemma collapse_app (s1 s2 : list obs) :
  ∀ prev,
    collapse prev (s1 ++ s2)
    = collapse prev s1
      ++ collapse (match last s1.*2 with Some v => Some v | None => prev end)
                  s2.
Proof.
  induction s1 as [|[block val] rest IH]; intros prev; [done|].
  rewrite <- app_comm_cons. cbn [collapse].
  case_bool_decide as Hne; rewrite IH, !fmap_cons; cbn [snd].
  - rewrite <- app_comm_cons. do 2 f_equal.
    destruct rest as [|o rest']; [done|].
    by rewrite fmap_cons, last_cons_cons,
      (last_or_cons o.2 rest'.*2 (Some val) prev).
  - subst prev. f_equal.
    destruct rest as [|o rest']; [done|].
    by rewrite fmap_cons, last_cons_cons.
Qed.

Lemma collapse_nil_iff (v : string) (series : list obs) :
  collapse (Some v) series = [] ↔ Forall (fun o => o.2 = v) series.
Proof.
  induction series as [|[block val] rest IH]; simpl.
  - split; [constructor | done].
  - rewrite Forall_cons. simpl. case_bool_decide as Hne.
    + split; [done|]. intros [-> _]. by destruct Hne.
    + injection Hne as ->. rewrite IH. tauto.
Qed.

Lemma collapse_length (b : Z) (v : string) (series : list obs) :
  length (collapse (Some v) series) = adjacent_changes ((b, v) :: series).
Proof.
  revert b v. induction series as [|[b' v'] rest IH]; intros b v; [done|].
  cbn [collapse adjacent_changes snd].
  destruct (decide (v = v')) as [->|Hne].
  - rewrite bool_decide_false by (intros H; by apply H).
    rewrite bool_decide_false by (intros H; by apply H).
    rewrite (IH b' v'). reflexivity.
  - rewrite bool_decide_true by congruence.
    rewrite bool_decide_true by done.
    cbn [length]. rewrite (IH b' v'). reflexivity.
Qed.

Lemma collapse_snoc (series : list obs) (o : obs) :
  collapse None (series ++ [o])
  = if bool_decide (Some o.2 ≠ last series.*2)
    then collapse None series ++ [o] else collapse None series.
Proof.
  rewrite collapse_app. destruct o as [b v]. cbn [collapse snd].
  destruct (last series.*2) as [v'|];
    case_bool_decide; by rewrite ?app_nil_r.
Qed.

End SummarizerMoreFacts.

(** X1: a series is summarized to a single change point exactly when all
    its observations carry the outcome of the first one. *)
Theorem summarize_changes_constant_iff (b : Z) (v : string) (rest : list obs) :
  length (Summarizer.summarize_changes ((b, v) :: rest)) = 1%nat
  ↔ Forall (fun o => o.2 = v) rest.
Proof.
  rewrite summarize_changes_collapse. cbn [Summarizer.collapse].
  rewrite bool_decide_true by done. cbn [length].
  rewrite <- collapse_nil_iff.
  destruct (Summarizer.collapse (Some v) rest); simpl; split; (done || lia).
Qed.

(** X2: the change points of a non-empty series are one more than the
    adjacent pairs of observations whose outcomes differ, so every change,
    a change back to an earlier value included, is counted once. *)
Theorem summarize_changes_counts_adjacent (o : obs) (rest : list obs) :
  length (Summarizer.summarize_changes (o :: rest))
  = S (adjacent_changes (o :: rest)).
Proof.
  destruct o as [b v]. rewrite summarize_changes_collapse.
  cbn [Summarizer.collapse]. rewrite bool_decide_true by done.
  cbn [length]. f_equal. apply collapse_length.
Qed.

(** X3: the summary grows with the series.  One more observation adds
    itself as a change point when its outcome differs from the last
    observation's and adds nothing otherwise; the change points of a
    series stay in front of those of any extension of it. *)
Theorem summarize_changes_extend (series more : list obs) (o : obs) :
  Summarizer.summarize_changes (series ++ [o])
  = (if bool_decide (Some o.2 ≠ last series.*2)
     then Summarizer.summarize_changes series ++ [o]
     else Summarizer.summarize_changes series) ∧
  Summarizer.summarize_changes series
  `prefix_of` Summarizer.summarize_changes (series ++ more).
Proof.
  rewrite !summarize_changes_collapse. split.
  - apply collapse_snoc.
  - rewrite collapse_app. by eexists.
Qed.

(** X4: the last change point carries the outcome of the last
    observation. *)
Theorem summarize_changes_last (series : list obs) :
  last (Summarizer.summarize_changes series).*2 = last series.*2.
Proof.
  rewrite summarize_changes_collapse.
  induction series as [|o series IH] using rev_ind; [done|].
  rewrite collapse_snoc.
  replace ((series ++ [o]).*2) with (series.*2 ++ [o.2])
    by (by rewrite fmap_app).
  rewrite last_snoc. case_bool_decide as Hne.
  - replace ((Summarizer.collapse None series ++ [o]).*2)
      with ((Summarizer.collapse None series).*2 ++ [o.2])
      by (by rewrite fmap_app).
    apply last_snoc.
  - by rewrite IH.
Qed.

(** ** The sampled block sequence, continued *)

Lemma arith_seq_last (start stride : Z) (n : nat) :
  last (Range.arith_seq start stride (S n))
  = Some (start + Z.of_nat n * stride).
Proof.
  unfold Range.arith_seq. rewrite seq_S, map_app. simpl. apply last_snoc.
Qed.

(** X5: on a valid range the last sampled block is
    [start + floor((end - start) / stride) * stride], less than one stride
    below [end]; [end] itself is sampled exactly when the stride divides
    [end - start]. *)
Theorem sampled_blocks_last (start_block end_block stride : Z) :
  start_block ≤ end_block → 0 < stride →
  ∃ blocks last_block,
    Range.sampled_blocks start_block end_block stride = Ret blocks ∧
    last blocks = Some last_block ∧
    last_block
    = start_block + (end_block - start_block) / stride * stride ∧
    end_block - stride < last_block ≤ end_block ∧
    (end_block ∈ blocks ↔ (end_block - start_block) mod stride = 0).
Proof.
  intros Hle Hpos.
  set (q := (end_block - start_block) / stride).
  assert (Hq0 : 0 ≤ q) by (apply Z.div_pos; lia).
  pose proof (Z.div_mod (end_block - start_block) stride ltac:(lia)) as Hdm.
  pose proof (Z.mod_pos_bound (end_block - start_block) stride Hpos) as Hm.
  fold q in Hdm.
  exists (Range.arith_seq start_block stride (Z.to_nat (q + 1))),
         (start_block + q * stride).
  split; [by apply sampled_blocks_valid|].
  replace (Z.to_nat (q + 1)) with (S (Z.to_nat q)) by lia.
  split; [rewrite arith_seq_last; f_equal; lia|].
  split; [done|]. split; [lia|].
  rewrite arith_seq_elem. split.
  - intros (k & Hk & Hend).
    replace (end_block - start_block) with (Z.of_nat k * stride) by lia.
    apply Z_mod_mult.
  - intros H0. exists (Z.to_nat q). split; [lia|]. lia.
Qed.

Lemma sampled_blocks_last_witness :
  1000 ≤ 2300 ∧ 0 < 500 ∧
  ∃ blocks last_block,
    Range.sampled_blocks 1000 2300 500 = Ret blocks ∧
    last blocks = Some last_block ∧
    last_block = 1000 + (2300 - 1000) / 500 * 500 ∧
    2300 - 500 < last_block ≤ 2300 ∧
    (2300 ∈ blocks ↔ (2300 - 1000) mod 500 = 0).
Proof.
  split; [lia|]. split; [lia|].
  apply (sampled_blocks_last 1000 2300 500); lia.
Defined.

(** ** The scan outside the ranges [main] lets through *)

(** X6: [scan_timeline] does not reject an inverted range itself.  With
    [end_block < start_block] and a positive step it samples no block:
    it makes no StorageReader request, reads no clock, prints nothing, and
    returns one empty timeline for every label. *)
Theorem scan_timeline_inverted_range (env : Env) (address : string)
    (slots : list Slot) (start_block end_block step : Z) (w : World) :
  end_block < start_block → 0 < step →
  Scanner.scan_timeline env address slots start_block end_block step w
  = (Ret (Scanner.init_out slots), w) ∧
  ∀ lbl, Dict.get lbl (Scanner.init_out slots) = Some [] ↔ lbl ∈ slots.*1.
Proof.
  intros Hinv Hpos. split.
  - unfold Scanner.scan_timeline, Range.sampled_blocks, Range.py_range,
      Range.range_length.
    destruct (Z.eqb_spec step 0) as [->|_]; [lia|].
    destruct (Z.ltb_spec 0 step) as [_|?]; [|lia].
    destruct (Z.ltb_spec start_block (end_block + 1)) as [?|_]; [lia|].
    reflexivity.
  - intros lbl. split; [|apply init_out_get].
    intros Hget. apply init_out_keys, dict_get_is_Some. by eexists.
Qed.

Lemma scan_timeline_inverted_range_witness :
  let env := running "http://localhost:8545"
               {| globals := ∅; storage := fun _ _ => inl [x01];
                  hex_0x := true; web3_is_address := fun _ => true;
                  web3_to_checksum_address := fun a => a;
                  parse_slots := fun _ => Ret [("owner", 0)];
                  rpc_connected := fun _ _ => true;
                  rpc_chain_id := Ret 1 |} in
  1000 < 2000 ∧ 0 < 500 ∧
  Scanner.scan_timeline env "0x00" [("owner", 0); ("admin", 1)]
                        2000 1000 500 world0
  = (Ret (Scanner.init_out [("owner", 0); ("admin", 1)]), world0) ∧
  ∀ lbl, Dict.get lbl (Scanner.init_out [("owner", 0); ("admin", 1)]) = Some []
         ↔ lbl ∈ [("owner", 0); ("admin", 1)].*1.
Proof.
  intros env. split; [lia|]. split; [lia|].
  apply (scan_timeline_inverted_range env "0x00" [("owner", 0); ("admin", 1)]
           2000 1000 500 world0); lia.
Defined.

(** X7: [scan_timeline] has no guard of its own against the steps [main]
    refuses.  Over a range that is not inverted, a zero step raises the
    [ValueError] of [range()] and a negative step samples no block and
    returns an empty timeline for every label; either way no StorageReader
    request is made, the clock is not read and nothing is printed. *)
Theorem scan_timeline_nonpositive_step (env : Env) (address : string)
    (slots : list Slot) (start_block end_block step : Z) (w : World) :
  step ≤ 0 → start_block ≤ end_block →
  Scanner.scan_timeline env address slots start_block end_block step w
  = (if step =? 0
     then Raise (ValueError "range() arg 3 must not be zero")
     else Ret (Scanner.init_out slots), w).
Proof.
  intros Hstep Hrange.
  unfold Scanner.scan_timeline, Range.sampled_blocks, Range.py_range,
    Range.range_length.
  destruct (Z.eqb_spec step 0) as [->|Hne]; [reflexivity|].
  destruct (Z.ltb_spec 0 step) as [?|_]; [lia|].
  destruct (Z.ltb_spec (end_block + 1) start_block) as [?|_]; [lia|].
  reflexivity.
Qed.

Lemma scan_timeline_nonpositive_step_witness :
  let env := running "http://localhost:8545"
               {| globals := ∅; storage := fun _ _ => inl [x01];
                  hex_0x := true; web3_is_address := fun _ => true;
                  web3_to_checksum_address := fun a => a;
                  parse_slots := fun _ => Ret [("owner", 0)];
                  rpc_connected := fun _ _ => true;
                  rpc_chain_id := Ret 1 |} in
  Scanner.scan_timeline env "0x00" [("owner", 0); ("admin", 1)]
                        1000 2000 (-500) world0
  = (Ret (Scanner.init_out [("owner", 0); ("admin", 1)]), world0).
Proof.
  intros env.
  apply (scan_timeline_nonpositive_step env "0x00" [("owner", 0); ("admin", 1)]
           1000 2000 (-500) world0); lia.
Defined.

(** ** Recorded outcomes, continued *)

Section HexFacts.

Import Hex.

Lemma hex_digit_code (n : N) :
  (n < 16)%N →
  N_of_ascii (hex_digit n) = if (n <? 10)%N then (48 + n)%N else (87 + n)%N.
Proof.
  intros Hn. unfold hex_digit.
  destruct (N.ltb_spec n 10); apply N_ascii_embedding; lia.
Qed.

Lemma hex_digit_inj (n m : N) :
  (n < 16)%N → (m < 16)%N → hex_digit n = hex_digit m → n = m.
Proof.
  intros Hn Hm Heq. apply (f_equal N_of_ascii) in Heq.
  rewrite !hex_digit_code in Heq by done.
  destruct (N.ltb_spec n 10), (N.ltb_spec m 10); lia.
Qed.

Lemma hex_byte_inj (b b' : byte) :
  hex_digit (Byte.to_N b / 16) = hex_digit (Byte.to_N b' / 16) →
  hex_digit (Byte.to_N b mod 16) = hex_digit (Byte.to_N b' mod 16) →
  b = b'.
Proof.
  intros Hhi Hlo.
  pose proof (Byte.to_N_bounded b) as Hb.
  pose proof (Byte.to_N_bounded b') as Hb'.
  apply hex_digit_inj in Hhi;
    [|apply N.Div0.div_lt_upper_bound; lia..].
  apply hex_digit_inj in Hlo; [|apply N.mod_lt; lia..].
  assert (Hn : Byte.to_N b = Byte.to_N b').
  { rewrite (N.div_mod (Byte.to_N b) 16), (N.div_mod (Byte.to_N b') 16)
      by lia. by rewrite Hhi, Hlo. }
  apply (f_equal Byte.of_N) in Hn. rewrite !Byte.of_to_N in Hn.
  by injection Hn.
Qed.

Lemma bytes_hex_inj (raw : list byte) :
  ∀ raw', bytes_hex raw = bytes_hex raw' → raw = raw'.
Proof.
  induction raw as [|b rest IH]; intros [|b' rest']; simpl; try done.
  intros [= Hhi Hlo Hrest]. f_equal; [by apply hex_byte_inj | by apply IH].
Qed.

Lemma bytes_hex_length (raw : list byte) :
  String.length (bytes_hex raw) = (2 * length raw)%nat.
Proof. induction raw as [|b rest IH]; simpl; [done|]. rewrite IH. lia. Qed.

Lemma HexBytes_hex_inj (with_0x : bool) (raw raw' : list byte) :
  HexBytes_hex with_0x raw = HexBytes_hex with_0x raw' → raw = raw'.
Proof.
  unfold HexBytes_hex.
  destruct with_0x; simpl; [intros [= H]|intros H]; by apply bytes_hex_inj.
Qed.

(** The recorded string determines the StorageReader's answer. *)
Lemma outcome_of_inj (env : Env) (a a' : list byte + string) :
  ScanSpec.outcome_of env a = ScanSpec.outcome_of env a' → a = a'.
Proof.
  destruct a as [raw|msg], a' as [raw'|msg']; unfold ScanSpec.outcome_of.
  - intros H. f_equal. by apply HexBytes_hex_inj in H.
  - unfold HexBytes_hex. destruct (hex_0x env); simpl; [discriminate|].
    destruct raw as [|b rest]; simpl; [discriminate|].
    intros [= H _]. by apply hex_high_digit_not_E in H.
  - unfold HexBytes_hex. destruct (hex_0x env); simpl; [discriminate|].
    destruct raw' as [|b rest]; simpl; [discriminate|].
    intros [= H _]. symmetry in H. by apply hex_high_digit_not_E in H.
  - change ("ERROR:" +:+ msg) with
      (String "E" (String "R" (String "R" (String "O" (String "R"
         (String ":" msg)))))).
    change ("ERROR:" +:+ msg') with
      (String "E" (String "R" (String "R" (String "O" (String "R"
         (String ":" msg')))))).
    intros H. f_equal. by injection H.
Qed.

End HexFacts.

(** X8: the hex rendering loses nothing: different raw values give
    different strings, and a value of [n] bytes is rendered in [2 * n]
    characters behind the prefix. *)
Theorem HexBytes_hex_faithful (with_0x : bool) (raw raw' : list byte) :
  (Hex.HexBytes_hex with_0x raw = Hex.HexBytes_hex with_0x raw'
   ↔ raw = raw') ∧
  String.length (Hex.HexBytes_hex with_0x raw)
  = ((if with_0x then 2 else 0) + 2 * length raw)%nat.
Proof.
  unfold Hex.HexBytes_hex. split.
  - split; [apply HexBytes_hex_inj | by intros ->].
  - destruct with_0x.
    + change ("0x" +:+ Hex.bytes_hex raw)
        with (String "0" (String "x" (Hex.bytes_hex raw))).
      cbn [String.length]. rewrite bytes_hex_length. lia.
    + change ("" +:+ Hex.bytes_hex raw) with (Hex.bytes_hex raw).
      rewrite bytes_hex_length. lia.
Qed.

(** X9: two guarded reads record the same string exactly when the
    StorageReader gave them the same answer: the same bytes, or a failure
    with the same description.  Change detection on the recorded strings
    therefore sees every change of the answers and nothing else. *)
Theorem read_sample_faithful (env : Env) (address : string)
    (idx b idx' b' : Z) (w w' : World) :
  (Scanner.read_sample env address idx b w).1
  = (Scanner.read_sample env address idx' b' w').1
  ↔ storage env (w_calls w) (address, idx, b)
    = storage env (w_calls w') (address, idx', b').
Proof.
  rewrite !read_sample_run. cbn [fst]. split.
  - intros [= H]. by apply (outcome_of_inj env).
  - by intros ->.
Qed.

(** ** One sampled block *)

(** X10: the slot loop of one block never raises, whatever the
    StorageReader answers.  Given a dict that has every slot's label, it
    makes one request per slot, in slot order, touches neither the clock
    nor the output, keeps the labels of the dict, and appends to each
    label's timeline one observation at this block per slot carrying the
    label. *)
Theorem scan_block_total (env : Env) (address : string) (b : Z)
    (slots : list Slot) (out : dict (list obs)) (w : World) :
  (∀ s, s ∈ slots → s.1 ∈ Dict.keys out) →
  ∃ out',
    Scanner.scan_block env address slots b out w
    = (Ret out',
       {| w_calls := w_calls w
                     ++ map (fun s : Slot => (address, s.2, b)) slots;
          w_clock := w_clock w; w_stdout := w_stdout w |}) ∧
    Dict.keys out' = Dict.keys out ∧
    ∀ lbl series,
      Dict.get lbl out = Some series →
      ∃ new,
        Dict.get lbl out' = Some (series ++ new) ∧
        new.*1
        = replicate (length (filter (fun s : Slot => s.1 = lbl) slots)) b.
Proof.
  intros Hkeys.
  destruct (scan_block_run env address b slots out w Hkeys)
    as (out' & E & Hk & Hget).
  exists out'. split.
  { rewrite E. do 3 f_equal. unfold ScanSpec.requests.
    rewrite map_map. reflexivity. }
  split; [done|].
  intros lbl series Hs. eexists. split.
  - rewrite Hget, Hs. reflexivity.
  - apply block_timeline_blocks.
Qed.

Lemma scan_block_total_witness :
  let env := {| globals := ∅; storage := timeout_at_1500;
                hex_0x := true; web3_is_address := fun _ => true;
                web3_to_checksum_address := fun a => a;
                parse_slots := fun _ => Ret [("owner", 0)];
                rpc_connected := fun _ _ => true;
                rpc_chain_id := Ret 1 |} in
  let slots : list Slot := [("owner", 0); ("admin", 1)] in
  let out : dict (list obs) :=
    [("owner", [(1000, "0x01")]); ("admin", [(1000, "0x01")])] in
  (∀ s, s ∈ slots → s.1 ∈ Dict.keys out) ∧
  ∃ out',
    Scanner.scan_block env "0x00" slots 1500 out world0
    = (Ret out',
       {| w_calls := w_calls world0
                     ++ map (fun s : Slot => ("0x00", s.2, 1500)) slots;
          w_clock := w_clock world0; w_stdout := w_stdout world0 |}) ∧
    Dict.keys out' = Dict.keys out ∧
    ∀ lbl series,
      Dict.get lbl out = Some series →
      ∃ new,
        Dict.get lbl out' = Some (series ++ new) ∧
        new.*1
        = replicate (length (filter (fun s : Slot => s.1 = lbl) slots)) 1500.
Proof.
  intros env slots out.
  assert (Hkeys : ∀ s, s ∈ slots → s.1 ∈ Dict.keys out).
  { intros s Hs. apply list_elem_of_In in Hs. apply list_elem_of_In.
    simpl in Hs |- *. destruct Hs as [<-|[<-|[]]]; simpl; tauto. }
  split; [exact Hkeys|].
  exact (scan_block_total env "0x00" 1500 slots out world0 Hkeys).
Defined.

(** ** Input errors in [main] *)

Lemma main_bad_range_run (env : Env) (args : Args) (w : World) :
  a_to_block args < a_from_block args ∨ a_step args ≤ 0 →
  rejected (Report.main env args w) w.
Proof.
  intros Hbad. unfold rejected, Report.main. unfold mbind at 1.
  destruct (Z.ltb_spec (a_to_block args) (a_from_block args)) as [Hlt|Hge].
  { cbn. repeat split; try done. by eexists. }
  unfold mret at 1. unfold mbind at 1.
  destruct (Z.leb_spec (a_step args) 0) as [Hle|Hgt]; [|lia].
  cbn. repeat split; try done. by eexists.
Qed.

Lemma main_input_error_run (env : Env) (args : Args) (w : World) :
  a_from_block args ≤ a_to_block args → 0 < a_step args →
  (∀ code, parse_slots env args ≠ Exit code) →
  web3_is_address env (a_address args) = false
  ∨ (∃ e, parse_slots env args = Raise e)
  ∨ Report.starts_with "http://" (a_rpc args)
    || Report.starts_with "https://" (a_rpc args) = false
  ∨ rpc_connected env (a_rpc args) (a_timeout args) = false →
  rejected (Report.main env args w) w.
Proof.
  intros Hrange Hstep Hnoexit Hbad. unfold rejected, Report.main.
  destruct (Z.ltb_spec (a_to_block args) (a_from_block args)); [lia|].
  destruct (Z.leb_spec (a_step args) 0); [lia|].
  unfold Report.to_checksum.
  destruct (web3_is_address env (a_address args)) eqn:Haddr.
  - destruct (parse_slots env args) as [slots|e|code] eqn:Hslots;
      [| |by destruct (Hnoexit code)].
    + destruct (Report.starts_with "http://" (a_rpc args)
                || Report.starts_with "https://" (a_rpc args)) eqn:Hurl.
      * destruct (rpc_connected env (a_rpc args) (a_timeout args)) eqn:Hconn.
        { destruct Hbad as [?|[[e ?]|[?|?]]]; done. }
        cbn. repeat split; try done. by eexists.
      * cbn. repeat split; try done. by eexists.
    + cbn. repeat split; try done. by eexists.
  - cbn. repeat split; try done. by eexists.
Qed.

(** X11: an input error found after the range checks (an address that is
    not valid, slots that cannot be resolved, an RPC URL without http(s)
    prefix, an endpoint that does not answer) ends the run with status 1
    after one printed line, before any StorageReader request and before
    the clock is read. *)
Theorem main_rejects_input_errors (env : Env) (args : Args) (w : World) :
  a_from_block args ≤ a_to_block args → 0 < a_step args →
  (∀ code, parse_slots env args ≠ Exit code) →
  web3_is_address env (a_address args) = false
  ∨ (∃ e, parse_slots env args = Raise e)
  ∨ Report.starts_with "http://" (a_rpc args)
    || Report.starts_with "https://" (a_rpc args) = false
  ∨ rpc_connected env (a_rpc args) (a_timeout args) = false →
  (Report.main env args w).1 = Exit 1 ∧
  w_calls (Report.main env args w).2 = w_calls w ∧
  w_clock (Report.main env args w).2 = w_clock w ∧
  ∃ complaint, w_stdout (Report.main env args w).2 = w_stdout w ++ [complaint].
Proof. apply main_input_error_run. Qed.

Lemma main_rejects_input_errors_witness :
  let env := {| globals := module_globals "http://localhost:8545";
                storage := fun _ _ => inl [x01];
                hex_0x := true;
                web3_is_address := fun _ => false;
                web3_to_checksum_address := fun a => a;
                parse_slots := fun _ => Ret [("owner", 0)];
                rpc_connected := fun _ _ => true;
                rpc_chain_id := Ret 1 |} in
  let args := {| a_rpc := "http://localhost:8545"; a_address := "not-an-address";
                 a_from_block := 1000; a_to_block := 2000; a_step := 500;
                 a_slot := Some ["owner:0x0"]; a_manifest := None;
                 a_timeout := 30; a_json := false |} in
  (Report.main env args world0).1 = Exit 1 ∧
  w_calls (Report.main env args world0).2 = w_calls world0 ∧
  w_clock (Report.main env args world0).2 = w_clock world0 ∧
  ∃ complaint,
    w_stdout (Report.main env args world0).2 = w_stdout world0 ++ [complaint].
Proof.
  intros env args.
  apply (main_rejects_input_errors env args world0).
  - simpl. lia.
  - simpl. lia.
  - intros code. simpl. discriminate.
  - left. reflexivity.
Defined.

(** X12: as the module stands, what [main] does once [parse_args] has
    returned (lines 134-204) reaches neither the StorageReader nor a
    verdict.  Whatever the parsed arguments and the surroundings, it ends
    with status 1 and without a single request: by a rejected input, or by
    the [NameError] of the first progress line.  (How [parse_args] itself
    ends a run, on [-h] or on a malformed option, is not part of this.) *)
Theorem main_never_queries (default_rpc : string) (env : Env) (args : Args)
    (w : World) :
  (∀ code, parse_slots env args ≠ Exit code) →
  (∀ code, rpc_chain_id env ≠ Exit code) →
  Report.exit_status (Report.main (running default_rpc env) args w).1 = 1 ∧
  w_calls (Report.main (running default_rpc env) args w).2 = w_calls w.
Proof.
  intros Hslots Hchain.
  destruct (decide (a_to_block args < a_from_block args ∨ a_step args ≤ 0))
    as [Hbad|Hok].
  { destruct (main_bad_range_run (running default_rpc env) args w Hbad)
      as (-> & Hc & _). done. }
  assert (Hrange : a_from_block args ≤ a_to_block args) by lia.
  assert (Hstep : 0 < a_step args) by lia.
  assert (Hrej :
    web3_is_address env (a_address args) = false
    ∨ (∃ e, parse_slots env args = Raise e)
    ∨ Report.starts_with "http://" (a_rpc args)
      || Report.starts_with "https://" (a_rpc args) = false
    ∨ rpc_connected env (a_rpc args) (a_timeout args) = false →
    Report.exit_status (Report.main (running default_rpc env) args w).1 = 1 ∧
    w_calls (Report.main (running default_rpc env) args w).2 = w_calls w).
  { intros Herr.
    destruct (main_input_error_run (running default_rpc env) args w Hrange
                Hstep Hslots Herr) as (-> & Hc & _). done. }
  destruct (web3_is_address env (a_address args)) eqn:Haddr;
    [|apply Hrej; by left].
  destruct (parse_slots env args) as [slots|e|code] eqn:Hp;
    [|apply Hrej; right; left; by exists e|by destruct (Hslots code)].
  destruct (Report.starts_with "http://" (a_rpc args)
            || Report.starts_with "https://" (a_rpc args)) eqn:Hurl;
    [|apply Hrej; right; right; by left].
  destruct (rpc_connected env (a_rpc args) (a_timeout args)) eqn:Hconn;
    [|apply Hrej; right; right; by right].
  destruct (main_valid_input_name_error default_rpc env args slots w)
    as (_ & Hs & Hc); auto.
Qed.

Lemma main_never_queries_witness :
  let env := {| globals := ∅; storage := fun _ _ => inl [x01];
                hex_0x := true; web3_is_address := fun _ => true;
                web3_to_checksum_address := fun a => a;
                parse_slots := fun _ => Ret [("owner", 0)];
                rpc_connected := fun _ _ => true;
                rpc_chain_id := Ret 1 |} in
  let args := {| a_rpc := "http://localhost:8545"; a_address := "0x00";
                 a_from_block := 1000; a_to_block := 2000; a_step := 500;
                 a_slot := Some ["owner:0x0"]; a_manifest := None;
                 a_timeout := 30; a_json := false |} in
  Report.exit_status
    (Report.main (running "http://localhost:8545" env) args world0).1 = 1 ∧
  w_calls (Report.main (running "http://localhost:8545" env) args world0).2
  = w_calls world0.
Proof.
  intros env args.
  apply (main_never_queries "http://localhost:8545" env args world0).
  - intros code. simpl. discriminate.
  - intros code. simpl. discriminate.
Defined.

(** ** The scan with [start_time] bound, continued *)

Section ScanBoundFacts.

Import Scanner ScanSpec.

Lemma requests_visits (address : string) (slots : list Slot)
    (blocks : list Z) :
  requests address (visits slots blocks)
  = flat_map (fun b => map (fun s : Slot => (address, s.2, b)) slots) blocks.
Proof.
  induction blocks as [|b rest IH]; [done|].
  simpl. rewrite requests_app, IH. f_equal.
  unfold requests. by rewrite map_map.
Qed.

Lemma init_out_fold_keys (slots : list Slot) :
  ∀ d : dict (list obs),
    NoDup (Dict.keys d ++ slots.*1) →
    Dict.keys (fold_left (fun d (s : Slot) => Dict.set s.1 [] d) slots d)
    = Dict.keys d ++ slots.*1.
Proof.
  induction slots as [|s rest IH]; intros d Hnd; simpl.
  - by rewrite app_nil_r.
  - rewrite fmap_cons in Hnd.
    assert (Hfresh : s.1 ∉ Dict.keys d).
    { apply NoDup_app in Hnd as (_ & Hdisj & _).
      intros Hin. apply (Hdisj _ Hin). left. }
    rewrite IH; rewrite dict_set_fresh by done; unfold Dict.keys in *;
      rewrite fmap_app; simpl; rewrite <- app_assoc; done.
Qed.

Lemma init_out_keys_NoDup (slots : list Slot) :
  NoDup slots.*1 → Dict.keys (init_out slots) = slots.*1.
Proof. intros Hnd. unfold init_out. by rewrite init_out_fold_keys. Qed.

Lemma filter_label_absent (slots : list Slot) (lbl : string) :
  lbl ∉ slots.*1 → filter (fun s : Slot => s.1 = lbl) slots = [].
Proof.
  induction slots as [|s rest IH]; intros Hout; [done|].
  rewrite fmap_cons in Hout. apply not_elem_of_cons in Hout as [Hne Hout].
  rewrite filter_cons, decide_False by done. by apply IH.
Qed.

Lemma filter_label_unique (slots : list Slot) (lbl : string) :
  NoDup slots.*1 → lbl ∈ slots.*1 →
  length (filter (fun s : Slot => s.1 = lbl) slots) = 1%nat.
Proof.
  induction slots as [|s rest IH]; intros Hnd Hin.
  - by apply elem_of_nil in Hin.
  - rewrite fmap_cons in Hnd, Hin. apply NoDup_cons in Hnd as [Hs Hnd].
    rewrite filter_cons. destruct (decide (s.1 = lbl)) as [<-|Hne].
    + by rewrite filter_label_absent.
    + apply elem_of_cons in Hin as [->|Hin]; [done|]. by apply IH.
Qed.

Lemma flat_map_replicate_1 (blocks : list Z) :
  flat_map (fun b => replicate 1 b) blocks = blocks.
Proof. induction blocks as [|b rest IH]; [done | simpl; by f_equal]. Qed.

End ScanBoundFacts.

Lemma scan_timeline_bound_run (env : Env) (address : string)
    (slots : list Slot) (start_block end_block step : Z) (blocks : list Z)
    (t : num) (w : World) :
  globals env !! "start_time" = Some (PNum t) →
  Range.sampled_blocks start_block end_block step = Ret blocks →
  ∃ out w',
    Scanner.scan_timeline env address slots start_block end_block step w
    = (Ret out, w') ∧
    Dict.keys out = Dict.keys (Scanner.init_out slots) ∧
    (∀ lbl, lbl ∈ slots.*1 →
       Dict.get lbl out
       = Some (ScanSpec.timeline_of lbl
                 (ScanSpec.samples env address
                    (ScanSpec.visits slots blocks) (w_calls w)))) ∧
    w_calls w'
    = w_calls w
      ++ flat_map (fun b => map (fun s : Slot => (address, s.2, b)) slots)
                  blocks ∧
    w_clock w' = (w_clock w + length blocks)%nat ∧
    length (w_stdout w') = (length (w_stdout w) + length blocks)%nat.
Proof.
  intros Hg Hb. unfold Scanner.scan_timeline. rewrite Hb.
  destruct (scan_blocks_run env address t slots (Z.of_nat (length blocks))
              blocks Hg 1 (Scanner.init_out slots) w)
    as (out & w' & E & Hk & Hget & Hc & Ht & Hs).
  { intros s Hs. apply init_out_keys. apply list_elem_of_fmap. by exists s. }
  exists out, w'. split; [exact E|]. split; [done|].
  split; [|by rewrite Hc, requests_visits].
  intros lbl Hl. by rewrite Hget, init_out_get.
Qed.

(** X13: with [start_time] bound to a number, [scan_timeline] on a valid
    range returns.  It asks the StorageReader block by block and, within a
    block, slot by slot; reads the clock and prints one progress line once
    per block; and returns, for every label, a timeline holding each
    sampled block, in order, once per slot carrying that label, and no
    timeline for any other label. *)
Theorem scan_timeline_with_start_time (env : Env) (address : string)
    (slots : list Slot) (start_block end_block step : Z) (t : num)
    (w : World) :
  globals env !! "start_time" = Some (PNum t) →
  start_block ≤ end_block → 0 < step →
  ∃ blocks out w',
    Range.sampled_blocks start_block end_block step = Ret blocks ∧
    Scanner.scan_timeline env address slots start_block end_block step w
    = (Ret out, w') ∧
    w_calls w'
    = w_calls w
      ++ flat_map (fun b => map (fun s : Slot => (address, s.2, b)) slots)
                  blocks ∧
    w_clock w' = (w_clock w + length blocks)%nat ∧
    length (w_stdout w') = (length (w_stdout w) + length blocks)%nat ∧
    (∀ lbl, lbl ∈ slots.*1 →
       ∃ series,
         Dict.get lbl out = Some series ∧
         series.*1
         = flat_map
             (fun b =>
                replicate
                  (length (filter (fun s : Slot => s.1 = lbl) slots)) b)
             blocks) ∧
    (∀ lbl, lbl ∉ slots.*1 → Dict.get lbl out = None).
Proof.
  intros Hg Hle Hpos.
  pose proof (sampled_blocks_valid start_block end_block step Hle Hpos) as Hb.
  destruct (scan_timeline_bound_run env address slots start_block end_block
              step _ t w Hg Hb) as (out & w' & E & Hk & Hget & Hc & Ht & Hs).
  eexists _, out, w'. split; [exact Hb|]. split; [exact E|].
  split; [exact Hc|]. split; [exact Ht|]. split; [exact Hs|]. split.
  - intros lbl Hl. eexists. split; [by apply Hget|]. apply timeline_blocks.
  - intros lbl Hl. destruct (Dict.get lbl out) as [series|] eqn:Hs'; [|done].
    destruct Hl. apply init_out_keys. rewrite <- Hk.
    apply dict_get_is_Some. by eexists.
Qed.

Lemma scan_timeline_with_start_time_witness :
  let env := with_start_time (Now 0)
               {| globals := module_globals "http://localhost:8545";
                  storage := timeout_at_1500;
                  hex_0x := true; web3_is_address := fun _ => true;
                  web3_to_checksum_address := fun a => a;
                  parse_slots := fun _ => Ret [("owner", 0)];
                  rpc_connected := fun _ _ => true;
                  rpc_chain_id := Ret 1 |} in
  let slots : list Slot := [("owner", 0); ("admin", 1)] in
  ∃ blocks out w',
    Range.sampled_blocks 1000 2000 500 = Ret blocks ∧
    Scanner.scan_timeline env "0x00" slots 1000 2000 500 world0
    = (Ret out, w') ∧
    w_calls w'
    = w_calls world0
      ++ flat_map (fun b => map (fun s : Slot => ("0x00", s.2, b)) slots)
                  blocks ∧
    w_clock w' = (w_clock world0 + length blocks)%nat ∧
    length (w_stdout w') = (length (w_stdout world0) + length blocks)%nat ∧
    (∀ lbl, lbl ∈ slots.*1 →
       ∃ series,
         Dict.get lbl out = Some series ∧
         series.*1
         = flat_map
             (fun b =>
                replicate
                  (length (filter (fun s : Slot => s.1 = lbl) slots)) b)
             blocks) ∧
    (∀ lbl, lbl ∉ slots.*1 → Dict.get lbl out = None).
Proof.
  intros env slots.
  apply (scan_timeline_with_start_time env "0x00" slots 1000 2000 500 (Now 0)
           world0).
  - reflexivity.
  - lia.
  - lia.
Defined.

Section UniqueLabelFacts.

Import ScanSpec.

Variable env : Env.
Variable address : string.

Lemma timeline_of_absent (lbl : string) (vs : list (Slot * Z)) :
  ∀ history,
    lbl ∉ (vs.*1).*1 →
    timeline_of lbl (samples env address vs history) = [].
Proof.
  induction vs as [|v rest IH]; intros history Hout; [done|].
  rewrite !fmap_cons in Hout. apply not_elem_of_cons in Hout as [Hne Hout].
  simpl samples. rewrite timeline_of_cons. simpl.
  rewrite decide_False by done. by apply IH.
Qed.

Lemma block_labels (b : Z) (slots : list Slot) :
  ((map (fun s : Slot => (s, b)) slots).*1).*1 = slots.*1.
Proof. induction slots as [|s rest IH]; [done|]. simpl. by f_equal. Qed.

(** With unique labels, one block adds to the timeline of the [i]-th slot
    the single observation of that slot's request. *)
Lemma block_timeline_unique (b : Z) (slots : list Slot) :
  NoDup slots.*1 →
  ∀ (i : nat) (s : Slot) (history : list Call),
    slots !! i = Some s →
    timeline_of s.1
      (samples env address (map (fun s : Slot => (s, b)) slots) history)
    = [(b, outcome_of env
             (storage env
                (history
                 ++ requests address
                      (take i (map (fun s : Slot => (s, b)) slots)))
                (address, s.2, b)))].
Proof.
  induction slots as [|s0 rest IH]; intros Hnd i s history Hi; [done|].
  rewrite fmap_cons in Hnd. apply NoDup_cons in Hnd as [Hs0 Hnd].
  simpl map. simpl samples. rewrite timeline_of_cons. simpl fst. simpl snd.
  destruct i as [|i]; simpl in Hi.
  - injection Hi as ->. rewrite decide_True by done.
    rewrite timeline_of_absent by (by rewrite block_labels).
    simpl. by rewrite app_nil_r.
  - assert (Hin : s.1 ∈ rest.*1).
    { apply list_elem_of_fmap. exists s. split; [done|].
      by apply list_elem_of_lookup_2 in Hi. }
    rewrite decide_False by (intros Heq; by rewrite Heq in Hs0).
    rewrite (IH Hnd i s _ Hi). simpl. by rewrite <- app_assoc.
Qed.

(** With unique labels, the [j]-th observation of the [i]-th slot's
    timeline is the recorded outcome of the request for that slot at the
    [j]-th block, answered after the requests of the blocks before it and
    of the slots before it at that block. *)
Lemma timeline_unique_lookup (slots : list Slot) (blocks : list Z) :
  NoDup slots.*1 →
  ∀ (i j : nat) (s : Slot) (b : Z) (history : list Call),
    slots !! i = Some s → blocks !! j = Some b →
    timeline_of s.1 (samples env address (visits slots blocks) history) !! j
    = Some (b, outcome_of env
                 (storage env
                    (history
                     ++ requests address (visits slots (take j blocks))
                     ++ requests address
                          (take i (map (fun s : Slot => (s, b)) slots)))
                    (address, s.2, b))).
Proof.
  intros Hnd. induction blocks as [|b0 rest IH];
    intros i j s b history Hi Hj; [done|].
  simpl visits. rewrite samples_app, timeline_of_app.
  rewrite (block_timeline_unique b0 slots Hnd i s history Hi).
  destruct j as [|j]; simpl in Hj.
  - injection Hj as ->. simpl. reflexivity.
  - simpl. rewrite (IH i j s b _ Hi Hj). simpl.
    rewrite requests_app, <- !app_assoc. reflexivity.
Qed.

End UniqueLabelFacts.

(** X14: with [start_time] bound and labels that are unique, the dict
    [scan_timeline] returns lists the labels in the order of the slots, and
    each timeline has exactly one observation per sampled block, in
    sampling order: the [j]-th observation of the [i]-th slot is the
    recorded outcome of the request for that slot at the [j]-th block,
    answered after the requests of the earlier blocks and of the earlier
    slots at that block. *)
Theorem scan_timeline_unique_labels (env : Env) (address : string)
    (slots : list Slot) (start_block end_block step : Z) (t : num)
    (w : World) :
  globals env !! "start_time" = Some (PNum t) →
  start_block ≤ end_block → 0 < step →
  NoDup slots.*1 →
  ∃ blocks out w',
    Range.sampled_blocks start_block end_block step = Ret blocks ∧
    Scanner.scan_timeline env address slots start_block end_block step w
    = (Ret out, w') ∧
    Dict.keys out = slots.*1 ∧
    ∀ (i : nat) (s : Slot),
      slots !! i = Some s →
      ∃ series,
        Dict.get s.1 out = Some series ∧
        series.*1 = blocks ∧
        ∀ (j : nat) (b : Z),
          blocks !! j = Some b →
          series !! j
          = Some (b, ScanSpec.outcome_of env
                       (storage env
                          (w_calls w
                           ++ ScanSpec.requests address
                                (ScanSpec.visits slots (take j blocks))
                           ++ ScanSpec.requests address
                                (take i (map (fun s : Slot => (s, b)) slots)))
                          (address, s.2, b))).
Proof.
  intros Hg Hle Hpos Hnd.
  pose proof (sampled_blocks_valid start_block end_block step Hle Hpos) as Hb.
  destruct (scan_timeline_bound_run env address slots start_block end_block
              step _ t w Hg Hb) as (out & w' & E & Hk & Hget & _).
  eexists _, out, w'. split; [exact Hb|]. split; [exact E|].
  split; [by rewrite Hk, init_out_keys_NoDup|].
  intros i s Hi.
  assert (Hl : s.1 ∈ slots.*1).
  { apply list_elem_of_fmap. exists s. split; [done|].
    by apply list_elem_of_lookup_2 in Hi. }
  eexists. split; [by apply Hget|]. split.
  - rewrite timeline_blocks, filter_label_unique by done.
    apply flat_map_replicate_1.
  - intros j b Hj. by apply timeline_unique_lookup.
Qed.

Lemma scan_timeline_unique_labels_witness :
  let env := with_start_time (Now 0)
               {| globals := module_globals "http://localhost:8545";
                  storage := timeout_at_1500;
                  hex_0x := true; web3_is_address := fun _ => true;
                  web3_to_checksum_address := fun a => a;
                  parse_slots := fun _ => Ret [("owner", 0)];
                  rpc_connected := fun _ _ => true;
                  rpc_chain_id := Ret 1 |} in
  let slots : list Slot := [("owner", 0); ("admin", 1)] in
  ∃ blocks out w',
    Range.sampled_blocks 1000 2000 500 = Ret blocks ∧
    Scanner.scan_timeline env "0x00" slots 1000 2000 500 world0
    = (Ret out, w') ∧
    Dict.keys out = slots.*1 ∧
    ∀ (i : nat) (s : Slot),
      slots !! i = Some s →
      ∃ series,
        Dict.get s.1 out = Some series ∧
        series.*1 = blocks ∧
        ∀ (j : nat) (b : Z),
          blocks !! j = Some b →
          series !! j
          = Some (b, ScanSpec.outcome_of env
                       (storage env
                          (w_calls world0
                           ++ ScanSpec.requests "0x00"
                                (ScanSpec.visits slots (take j blocks))
                           ++ ScanSpec.requests "0x00"
                                (take i (map (fun s : Slot => (s, b)) slots)))
                          ("0x00", s.2, b))).
Proof.
  intros env slots.
  apply (scan_timeline_unique_labels env "0x00" slots 1000 2000 500 (Now 0)
           world0).
  - reflexivity.
  - lia.
  - lia.
  - apply (bool_decide_unpack _). vm_compute. exact I.
Defined.

(** ** The whole program with [start_time] bound *)

Lemma summarize_short_iff_constant (series : list obs) :
  (length (Summarizer.summarize_changes series) ≤ 1)%nat ↔ constant series.
Proof.
  rewrite summarize_changes_collapse. unfold constant.
  destruct series as [|[b v] rest]; simpl.
  - split; [|lia]. intros _ o o' Ho. by apply elem_of_nil in Ho.
  - assert (Hlen : (S (length (Summarizer.collapse (Some v) rest)) ≤ 1)%nat
                   ↔ Summarizer.collapse (Some v) rest = []).
    { destruct (Summarizer.collapse (Some v) rest); simpl; split;
        (done || lia). }
    rewrite Hlen, collapse_nil_iff, Forall_forall. split.
    + intros Hall o o' Ho Ho'.
      assert (Hv : ∀ x, x ∈ (b, v) :: rest → x.2 = v).
      { intros x [->|Hx]%elem_of_cons; [done | by apply Hall]. }
      by rewrite (Hv o Ho), (Hv o' Ho').
    + intros Hconst o Ho.
      apply (Hconst o (b, v)); [by right | by left].
Qed.

Lemma sum_transitions_zero_iff_constant (timeline : dict (list obs)) :
  Report.sum_transitions (Report.change_points_of timeline) = 0
  ↔ Forall (fun p => constant p.2) timeline.
Proof.
  rewrite sum_transitions_zero. unfold Report.change_points_of.
  rewrite Forall_fmap. apply Forall_iff. intros [lbl series]. simpl.
  apply summarize_short_iff_constant.
Qed.

(** With [start_time] bound, a run of [main] that passes every check: the
    scan, the report and the exit status. *)
Lemma main_scan_report_run (env : Env) (args : Args) (slots : list Slot)
    (t : num) (w : World) :
  globals env !! "start_time" = Some (PNum t) →
  a_from_block args ≤ a_to_block args →
  0 < a_step args →
  web3_is_address env (a_address args) = true →
  parse_slots env args = Ret slots →
  Report.starts_with "http://" (a_rpc args)
  || Report.starts_with "https://" (a_rpc args) = true →
  rpc_connected env (a_rpc args) (a_timeout args) = true →
  (∀ code, rpc_chain_id env ≠ Exit code) →
  ∃ blocks timeline code,
    Range.sampled_blocks (a_from_block args) (a_to_block args) (a_step args)
    = Ret blocks ∧
    (∀ lbl, lbl ∈ slots.*1 →
       Dict.get lbl timeline
       = Some (ScanSpec.timeline_of lbl
                 (ScanSpec.samples env
                    (web3_to_checksum_address env (a_address args))
                    (ScanSpec.visits slots blocks) (w_calls w)))) ∧
    (∀ lbl, lbl ∈ Dict.keys timeline ↔ lbl ∈ slots.*1) ∧
    NoDup (Dict.keys timeline) ∧
    (Report.main env args w).1 = Exit code ∧
    (code = 0 ↔ Forall (fun p => constant p.2) timeline) ∧
    (code = 0 ∨ code = 2) ∧
    w_calls (Report.main env args w).2
    = w_calls w
      ++ flat_map
           (fun b =>
              map (fun s : Slot =>
                     (web3_to_checksum_address env (a_address args), s.2, b))
                  slots)
           blocks ∧
    (a_json args = true →
     ∃ elapsed,
       last (w_stdout (Report.main env args w).2)
       = Some (L_json
                 {| j_rpc := a_rpc args;
                    j_address := web3_to_checksum_address env (a_address args);
                    j_range := (a_from_block args, a_to_block args,
                                a_step args);
                    j_slots := slots;
                    j_timeline := timeline;
                    j_change_points := Report.change_points_of timeline;
                    j_total_changes :=
                      Report.sum_transitions
                        (Report.change_points_of timeline);
                    j_ok := code =? 0;
                    j_elapsed_seconds := elapsed |})).
Proof.
  intros Hg Hrange Hstep Haddr Hslots Hurl Hconn Hchain.
  pose proof (sampled_blocks_valid _ _ _ Hrange Hstep) as Hb.
  set (blocks := Range.arith_seq _ _ _) in Hb.
  set (address := web3_to_checksum_address env (a_address args)).
  assert (Hscan : ∀ w0, ∃ timeline w1,
    Scanner.scan_timeline env address slots (a_from_block args)
      (a_to_block args) (a_step args) w0 = (Ret timeline, w1) ∧
    Dict.keys timeline = Dict.keys (Scanner.init_out slots) ∧
    (∀ lbl, lbl ∈ slots.*1 →
       Dict.get lbl timeline
       = Some (ScanSpec.timeline_of lbl
                 (ScanSpec.samples env address
                    (ScanSpec.visits slots blocks) (w_calls w0)))) ∧
    w_calls w1
    = w_calls w0
      ++ flat_map (fun b => map (fun s : Slot => (address, s.2, b)) slots)
                  blocks).
  { intros w0.
    destruct (scan_timeline_bound_run env address slots _ _ _ blocks t w0
                Hg Hb)
      as (out & w1 & E & Hk & Hget & Hc & _).
    by exists out, w1. }
  assert (Hrep : ∀ timeline w0, NoDup (Dict.keys timeline) → ∃ w1,
    Report.assemble timeline w0
    = (Ret (Report.change_points_of timeline,
            Report.sum_transitions (Report.change_points_of timeline),
            Report.sum_transitions (Report.change_points_of timeline) =? 0),
       w1) ∧ w_calls w1 = w_calls w0).
  { intros timeline w0 Hnd.
    destruct (report_loop timeline Hnd timeline [] 0 w0 eq_refl)
      as (w1 & E & Hc & _).
    exists w1. split; [|done]. unfold Report.assemble, mbind.
    match goal with
    | |- context [for_each ?ks ?body ?s w0] =>
        change (for_each ks body s w0)
          with (for_each (Dict.keys timeline) (Report.report_label timeline)
                         (Report.change_points_of [], 0) w0)
    end.
    rewrite E. reflexivity. }
  unfold Report.main.
  destruct (Z.ltb_spec (a_to_block args) (a_from_block args)); [lia|].
  destruct (Z.leb_spec (a_step args) 0); [lia|].
  unfold Report.to_checksum. rewrite Haddr, Hslots, Hurl, Hconn.
  fold address.
  unfold mbind, mret, try_except, lift, print, time_time. cbn [fst snd].
  cbn [w_calls w_clock w_stdout].
  destruct (rpc_chain_id env) as [id|e|code];
    [| |by destruct (Hchain code)].
  -
    match goal with
    | |- context [Scanner.scan_timeline _ _ _ _ _ _ ?w0] =>
        destruct (Hscan w0) as (timeline & w1 & E & Hk & Hget & Hc)
    end.
    cbn [w_calls w_clock w_stdout] in Hget, Hc.
    assert (Hnd : NoDup (Dict.keys timeline))
      by (rewrite Hk; apply init_out_NoDup).
    exists blocks, timeline,
      (if Report.sum_transitions (Report.change_points_of timeline) =? 0
       then 0 else 2).
    split; [exact Hb|]. split; [exact Hget|].
    split; [intros lbl; by rewrite Hk, init_out_keys|].
    split; [exact Hnd|].
    rewrite <- sum_transitions_zero_iff_constant.
    rewrite E. cbn [w_calls w_clock w_stdout].
    match goal with
    | |- context [Report.assemble _ ?w2] =>
        destruct (Hrep timeline w2 Hnd) as (w3 & E3 & Hc3); rewrite E3
    end.
    cbn [w_calls w_clock w_stdout] in Hc3.
    destruct (Z.eqb_spec
                (Report.sum_transitions (Report.change_points_of timeline))
                0) as [Hz|Hz];
      destruct (a_json args); cbn;
      repeat split; try (done || lia || congruence || tauto);
      intros _; eexists; by rewrite last_snoc.
  -
    match goal with
    | |- context [Scanner.scan_timeline _ _ _ _ _ _ ?w0] =>
        destruct (Hscan w0) as (timeline & w1 & E & Hk & Hget & Hc)
    end.
    cbn [w_calls w_clock w_stdout] in Hget, Hc.
    assert (Hnd : NoDup (Dict.keys timeline))
      by (rewrite Hk; apply init_out_NoDup).
    exists blocks, timeline,
      (if Report.sum_transitions (Report.change_points_of timeline) =? 0
       then 0 else 2).
    split; [exact Hb|]. split; [exact Hget|].
    split; [intros lbl; by rewrite Hk, init_out_keys|].
    split; [exact Hnd|].
    rewrite <- sum_transitions_zero_iff_constant.
    rewrite E. cbn [w_calls w_clock w_stdout].
    match goal with
    | |- context [Report.assemble _ ?w2] =>
        destruct (Hrep timeline w2 Hnd) as (w3 & E3 & Hc3); rewrite E3
    end.
    cbn [w_calls w_clock w_stdout] in Hc3.
    destruct (Z.eqb_spec
                (Report.sum_transitions (Report.change_points_of timeline))
                0) as [Hz|Hz];
      destruct (a_json args); cbn;
      repeat split; try (done || lia || congruence || tauto);
      intros _; eexists; by rewrite last_snoc.
Qed.

Lemma dict_get_elem {V} (k : string) (v : V) (d : dict V) :
  Dict.get k d = Some v → (k, v) ∈ d.
Proof.
  induction d as [|[k' v'] rest IH]; cbn [Dict.get]; [done|].
  destruct (decide (k = k')) as [->|Hne].
  - intros [= ->]. by left.
  - intros H. right. by apply IH.
Qed.

(** X15: with [start_time] bound, a run of [main] that passes every check
    scans and reports.  It makes exactly the requests of the scan, at the
    checksummed address, and leaves with status 0 when the observations
    recorded under every label all carry one outcome, and with status 2
    otherwise, never with status 1. *)
Theorem main_with_start_time (env : Env) (args : Args) (slots : list Slot)
    (t : num) (w : World) :
  globals env !! "start_time" = Some (PNum t) →
  a_from_block args ≤ a_to_block args →
  0 < a_step args →
  web3_is_address env (a_address args) = true →
  parse_slots env args = Ret slots →
  Report.starts_with "http://" (a_rpc args)
  || Report.starts_with "https://" (a_rpc args) = true →
  rpc_connected env (a_rpc args) (a_timeout args) = true →
  (∀ code, rpc_chain_id env ≠ Exit code) →
  ∃ blocks code,
    Range.sampled_blocks (a_from_block args) (a_to_block args) (a_step args)
    = Ret blocks ∧
    (Report.main env args w).1 = Exit code ∧
    (code = 0
     ↔ ∀ lbl, lbl ∈ slots.*1 →
         constant
           (ScanSpec.timeline_of lbl
              (ScanSpec.samples env
                 (web3_to_checksum_address env (a_address args))
                 (ScanSpec.visits slots blocks) (w_calls w)))) ∧
    (code = 0 ∨ code = 2) ∧
    w_calls (Report.main env args w).2
    = w_calls w
      ++ flat_map
           (fun b =>
              map (fun s : Slot =>
                     (web3_to_checksum_address env (a_address args), s.2, b))
                  slots)
           blocks.
Proof.
  intros Hg Hrange Hstep Haddr Hslots Hurl Hconn Hchain.
  destruct (main_scan_report_run env args slots t w Hg Hrange Hstep Haddr
              Hslots Hurl Hconn Hchain)
    as (blocks & timeline & code & Hb & Hget & Hkeys & Hnd & Hexit & Hcode
        & Hst & Hcalls & _).
  exists blocks, code. split; [done|]. split; [done|].
  split; [|by split]. rewrite Hcode, Forall_forall. split.
  - intros Hall lbl Hl.
    apply (Hall (lbl, _)), dict_get_elem, Hget, Hl.
  - intros Hall [lbl series] Hin. cbn [snd].
    assert (Hl : lbl ∈ slots.*1).
    { apply Hkeys. unfold Dict.keys. apply list_elem_of_fmap.
      by exists (lbl, series). }
    pose proof (dict_get_first _ _ _ Hnd Hin) as Hs.
    rewrite (Hget lbl Hl) in Hs. injection Hs as <-. by apply Hall.
Qed.

Lemma main_with_start_time_witness :
  let env := with_start_time (Now 0)
               {| globals := module_globals "http://localhost:8545";
                  storage := timeout_at_1500;
                  hex_0x := true; web3_is_address := fun _ => true;
                  web3_to_checksum_address := fun a => a;
                  parse_slots := fun _ => Ret [("owner", 0)];
                  rpc_connected := fun _ _ => true;
                  rpc_chain_id := Ret 1 |} in
  let args := {| a_rpc := "http://localhost:8545"; a_address := "0x00";
                 a_from_block := 1000; a_to_block := 2000; a_step := 500;
                 a_slot := Some ["owner:0x0"]; a_manifest := None;
                 a_timeout := 30; a_json := true |} in
  let slots : list Slot := [("owner", 0)] in
  ∃ blocks code,
    Range.sampled_blocks 1000 2000 500 = Ret blocks ∧
    (Report.main env args world0).1 = Exit code ∧
    (code = 0
     ↔ ∀ lbl, lbl ∈ slots.*1 →
         constant
           (ScanSpec.timeline_of lbl
              (ScanSpec.samples env "0x00"
                 (ScanSpec.visits slots blocks) (w_calls world0)))) ∧
    (code = 0 ∨ code = 2) ∧
    w_calls (Report.main env args world0).2
    = w_calls world0
      ++ flat_map (fun b => map (fun s : Slot => ("0x00", s.2, b)) slots)
                  blocks.
Proof.
  intros env args slots.
  apply (main_with_start_time env args slots (Now 0) world0).
  - reflexivity.
  - simpl. lia.
  - simpl. lia.
  - reflexivity.
  - reflexivity.
  - reflexivity.
  - reflexivity.
  - intros code. simpl. discriminate.
Defined.

(** ** Slot indices: [hex] and [parse_slot_hex] *)

Section SlotHexFacts.

Import PyStr.

Lemma N_lt_16_cases (P : N → Prop) :
  Forall P (map N.of_nat (seq 0 16)) → ∀ d, (d < 16)%N → P d.
Proof.
  intros HF d Hd. rewrite Forall_forall in HF. apply HF.
  rewrite <- (N2Nat.id d). apply list_elem_of_In, in_map, in_seq. lia.
Qed.

(** What the scanner and the string methods see of a digit of [hex]. *)
Lemma hex_digit_facts (d : N) :
  (d < 16)%N →
  digit_value (Hex.hex_digit d) = d ∧
  (Hex.hex_digit d =? "_")%char = false ∧
  is_space (Hex.hex_digit d) = false ∧
  lower_char (Hex.hex_digit d) = Hex.hex_digit d.
Proof.
  revert d. apply N_lt_16_cases. repeat constructor.
Qed.

Lemma rstrip_cons (c : ascii) (s : string) :
  is_space c = false → rstrip (String c s) = String c (rstrip s).
Proof.
  intros Hc. cbn [rstrip]. rewrite Hc. by destruct (rstrip s).
Qed.

Lemma lower_cons (c : ascii) (s : string) :
  lower (String c s) = String (lower_char c) (lower s).
Proof. reflexivity. Qed.

Lemma rstrip_id (s : string) :
  Forall (fun c => is_space c = false) (String.list_ascii_of_string s) →
  rstrip s = s.
Proof.
  induction s as [|c s IH]; intros Hs; [done|].
  cbn [String.list_ascii_of_string] in Hs. inversion_clear Hs as [|? ? Hc Hs'].
  rewrite rstrip_cons by done. by rewrite IH.
Qed.

Lemma lower_id (s : string) :
  Forall (fun c => lower_char c = c) (String.list_ascii_of_string s) →
  lower s = s.
Proof.
  induction s as [|c s IH]; intros Hs; [done|].
  cbn [String.list_ascii_of_string] in Hs. inversion_clear Hs as [|? ? Hc Hs'].
  rewrite lower_cons, Hc. by rewrite IH.
Qed.

Lemma hex_digits_S (fuel : nat) (n : N) (acc : string) :
  hex_digits (S fuel) n acc
  = if (n <? 16)%N then String (Hex.hex_digit (n mod 16)) acc
    else hex_digits fuel (n / 16) (String (Hex.hex_digit (n mod 16)) acc).
Proof. reflexivity. Qed.

(** [hex] writes at least one digit. *)
Lemma hex_digits_head (fuel : nat) :
  ∀ (n : N) (acc : string),
    ∃ d rest, (d < 16)%N ∧
      hex_digits (S fuel) n acc = String (Hex.hex_digit d) rest.
Proof.
  induction fuel as [|fuel IH]; intros n acc; rewrite hex_digits_S.
  - destruct (n <? 16)%N; exists (n mod 16)%N; eexists;
      (split; [apply N.mod_lt; lia | reflexivity]).
  - destruct (n <? 16)%N; [|apply IH].
    exists (n mod 16)%N; eexists; (split; [apply N.mod_lt; lia | reflexivity]).
Qed.

Lemma hex_digits_chars (P : ascii → Prop) (fuel : nat) :
  (∀ d, (d < 16)%N → P (Hex.hex_digit d)) →
  ∀ (n : N) (acc : string),
    Forall P (String.list_ascii_of_string acc) →
    Forall P (String.list_ascii_of_string (hex_digits fuel n acc)).
Proof.
  intros HP. induction fuel as [|fuel IH]; intros n acc Hacc; [done|].
  rewrite hex_digits_S.
  assert (Forall P (String.list_ascii_of_string
                      (String (Hex.hex_digit (n mod 16)) acc))).
  { cbn [String.list_ascii_of_string]. constructor; [|done].
    apply HP, N.mod_lt. lia. }
  destruct (n <? 16)%N; [done | by apply IH].
Qed.

(** The scanner reads one digit of [hex]. *)
Lemma scan16_digit (d : N) (rest : string) (prev : ascii) (k : nat) (a : N) :
  (d < 16)%N →
  scan16 (String (Hex.hex_digit d) rest) prev k a
  = scan16 rest (Hex.hex_digit d) (S k) (16 * a + d).
Proof.
  intros Hd. destruct (hex_digit_facts d Hd) as (Hv & Hu & _ & _).
  cbn [scan16]. rewrite Hu, Hv.
  by destruct (N.ltb_spec d 16); [|lia].
Qed.

(** Scanning the digits [hex] writes for [n] accumulates [n]. *)
Lemma scan16_hex_digits (fuel : nat) :
  ∀ (n : N) (acc : string) (prev : ascii) (k : nat),
    (n < 2 ^ N.of_nat (S fuel))%N →
    ∃ prev' k',
      (prev' =? "_")%char = false ∧ (k < k')%nat ∧
      scan16 (hex_digits (S fuel) n acc) prev k 0 = scan16 acc prev' k' n.
Proof.
  induction fuel as [|fuel IH]; intros n acc prev k Hn; rewrite hex_digits_S.
  - change (2 ^ N.of_nat 1)%N with 2%N in Hn.
    assert (Hd : (n mod 16 < 16)%N) by (apply N.mod_lt; lia).
    destruct (N.ltb_spec n 16); [|lia].
    exists (Hex.hex_digit (n mod 16)), (S k).
    split; [apply (hex_digit_facts _ Hd)|]. split; [lia|].
    rewrite scan16_digit by done. f_equal.
    rewrite N.mod_small by lia. lia.
  - assert (Hd : (n mod 16 < 16)%N) by (apply N.mod_lt; lia).
    destruct (N.ltb_spec n 16).
    + exists (Hex.hex_digit (n mod 16)), (S k).
      split; [apply (hex_digit_facts _ Hd)|]. split; [lia|].
      rewrite scan16_digit by done. f_equal.
      rewrite N.mod_small by lia. lia.
    + destruct (IH (n / 16)%N (String (Hex.hex_digit (n mod 16)) acc) prev k)
        as (prev' & k' & _ & Hk & E).
      { rewrite Nat2N.inj_succ, N.pow_succ_r' in Hn.
        apply N.Div0.div_lt_upper_bound. lia. }
      exists (Hex.hex_digit (n mod 16)), (S k').
      split; [apply (hex_digit_facts _ Hd)|]. split; [lia|].
      rewrite E, scan16_digit by done. f_equal.
      pose proof (N.div_mod n 16). lia.
Qed.

Lemma starts_with_0x (s : string) :
  Report.starts_with "0x" s = true → ∃ rest, s = String "0" (String "x" rest).
Proof.
  unfold Report.starts_with. intros H.
  destruct s as [|c0 [|c1 rest]]; cbn [String.prefix] in H; try done.
  - by destruct (ascii_dec "0" c0).
  - destruct (ascii_dec "0" c0) as [<-|]; [|done].
    destruct (ascii_dec "x" c1) as [<-|]; [|done]. by exists rest.
Qed.

(** [int(s, 16)] on the text [hex] writes for a natural number. *)
Lemma int16_hex_digits (n : N) :
  int16 (String "0" (String "x"
           (hex_digits (S (N.to_nat (N.log2 n))) n "")))
  = Some (Z.of_N n).
Proof.
  destruct (hex_digits_head (N.to_nat (N.log2 n)) n "")
    as (d & rest & Hd & Hhead).
  destruct (scan16_hex_digits (N.to_nat (N.log2 n)) n "" Ascii.zero 0)
    as (prev' & k' & Hprev & Hk & Hscan).
  { rewrite Nat2N.inj_succ, N2Nat.id.
    destruct (N.eq_dec n 0%N) as [->|Hn]; [reflexivity|].
    apply N.log2_spec. lia. }
  revert Hscan. rewrite Hhead. intros Hscan.
  destruct (hex_digit_facts d Hd) as (_ & Hu & _ & _).
  unfold int16. cbn [skip_space]. change (c_space "0") with false.
  cbv iota. change ("0" =? "+")%char with false.
  change ("0" =? "-")%char with false. cbv iota.
  change (("0" =? "0")%char && (("x" =? "x")%char || ("x" =? "X")%char))
    with true.
  cbv iota. rewrite Hu, Hscan. cbn [scan16]. rewrite Hprev.
  destruct k' as [|k']; [lia|]. rewrite ?Hu. reflexivity.
Qed.

Lemma hex_nonneg (n : Z) :
  0 ≤ n →
  hex n = String "0" (String "x"
            (hex_digits (S (N.to_nat (N.log2 (Z.abs_N n)))) (Z.abs_N n) "")).
Proof. intros Hn. unfold hex. by destruct (Z.ltb_spec n 0); [lia|]. Qed.

Lemma hex_negative (n : Z) :
  n < 0 →
  hex n = String "-" (String "0" (String "x"
            (hex_digits (S (N.to_nat (N.log2 (Z.abs_N n)))) (Z.abs_N n) ""))).
Proof. intros Hn. unfold hex. by destruct (Z.ltb_spec n 0); [|lia]. Qed.

(** [hex] writes neither spaces nor capitals. *)
Lemma strip_lower_hex (n : Z) : lower (strip (hex n)) = hex n.
Proof.
  assert (Hsp : Forall (fun c => is_space c = false)
                  (String.list_ascii_of_string
                     (hex_digits (S (N.to_nat (N.log2 (Z.abs_N n))))
                        (Z.abs_N n) ""))).
  { apply hex_digits_chars; [|constructor].
    intros d Hd. apply (hex_digit_facts d Hd). }
  assert (Hlo : Forall (fun c => lower_char c = c)
                  (String.list_ascii_of_string
                     (hex_digits (S (N.to_nat (N.log2 (Z.abs_N n))))
                        (Z.abs_N n) ""))).
  { apply hex_digits_chars; [|constructor].
    intros d Hd. apply (hex_digit_facts d Hd). }
  unfold strip.
  destruct (Z.lt_ge_cases n 0) as [Hneg|Hpos];
    [rewrite (hex_negative n Hneg) | rewrite (hex_nonneg n Hpos)];
    revert Hsp Hlo;
    generalize (hex_digits (S (N.to_nat (N.log2 (Z.abs_N n)))) (Z.abs_N n) "");
    intros digits Hsp Hlo.
  - cbn [lstrip]. change (is_space "-") with false. cbv iota.
    rewrite !rstrip_cons by reflexivity. rewrite (rstrip_id _ Hsp).
    rewrite !lower_cons, (lower_id _ Hlo). reflexivity.
  - cbn [lstrip]. change (is_space "0") with false. cbv iota.
    rewrite !rstrip_cons by reflexivity. rewrite (rstrip_id _ Hsp).
    rewrite !lower_cons, (lower_id _ Hlo). reflexivity.
Qed.

Lemma parse_slot_hex_hex_run (n : Z) :
  Slots.parse_slot_hex (hex n)
  = if n <? 0
    then Raise (ValueError ("Slot must be 0x-prefixed hex: " +:+ hex n))
    else Ret n.
Proof.
  unfold Slots.parse_slot_hex. rewrite strip_lower_hex.
  destruct (Z.ltb_spec n 0) as [Hneg|Hpos].
  - rewrite (hex_negative n Hneg). reflexivity.
  - rewrite (hex_nonneg n Hpos), int16_hex_digits.
    unfold Report.starts_with. cbn [String.prefix].
    destruct (ascii_dec "0" "0"); [|done].
    destruct (ascii_dec "x" "x"); [|done].
    replace (Z.of_N (Z.abs_N n)) with n by lia.
    by destruct (hex_digits _ _ _).
Qed.

(** X16: the index of a slot as the JSON report renders it ([hex(idx)],
    line 194) is read back by [parse_slot_hex] as the same index when it is
    not negative; the rendering of a negative index is refused for lacking
    the [0x] prefix. *)
Theorem parse_slot_hex_hex (n : Z) :
  Slots.parse_slot_hex (hex n)
  = if n <? 0
    then Raise (ValueError ("Slot must be 0x-prefixed hex: " +:+ hex n))
    else Ret n.
Proof.
  destruct (Z.ltb_spec n 0) as [Hneg|Hpos].
  - rewrite parse_slot_hex_hex_run. by destruct (Z.ltb_spec n 0); [|lia].
  - rewrite parse_slot_hex_hex_run. by destruct (Z.ltb_spec n 0); [lia|].
Qed.

(** Behind [0x] no sign is read: the number is not negative. *)
Lemma int16_0x_nonneg (rest : string) (n : Z) :
  int16 (String "0" (String "x" rest)) = Some n → 0 ≤ n.
Proof.
  unfold int16. cbn [skip_space]. change (c_space "0") with false.
  cbv iota. change ("0" =? "+")%char with false.
  change ("0" =? "-")%char with false. cbv iota.
  change (("0" =? "0")%char && (("x" =? "x")%char || ("x" =? "X")%char))
    with true.
  cbv iota. intros H.
  repeat (case_match; try discriminate); injection H as <-; lia.
Qed.

Lemma parse_slot_hex_nonneg_run (raw : string) (n : Z) :
  Slots.parse_slot_hex raw = Ret n →
  0 ≤ n ∧ Slots.parse_slot_hex (hex n) = Ret n.
Proof.
  unfold Slots.parse_slot_hex at 1. intros H.
  destruct (Report.starts_with "0x" (lower (strip raw))) eqn:Hp;
    [|discriminate].
  destruct (starts_with_0x _ Hp) as (rest & Hs). rewrite Hs in H.
  destruct (int16 (String "0" (String "x" rest))) as [m|] eqn:Hint;
    [|discriminate].
  injection H as <-. apply int16_0x_nonneg in Hint. split; [done|].
  rewrite parse_slot_hex_hex_run. by destruct (Z.ltb_spec m 0); [lia|].
Qed.

(** X17: [parse_slot_hex] returns no negative index, whatever sign or
    digits the text carries, and the index it returns is the one its own
    rendering [hex(idx)] is read back as. *)
Theorem parse_slot_hex_nonneg (raw : string) (n : Z) :
  is_ascii raw = true →
  Slots.parse_slot_hex raw = Ret n →
  0 ≤ n ∧ Slots.parse_slot_hex (hex n) = Ret n.
Proof. intros _. apply parse_slot_hex_nonneg_run. Qed.

Lemma parse_slot_hex_nonneg_witness :
  0 ≤ 31 ∧ Slots.parse_slot_hex (hex 31) = Ret 31.
Proof.
  apply (parse_slot_hex_nonneg " 0X1f " 31); reflexivity.
Defined.

(** A boolean property of characters holds when it holds of all 256. *)
Lemma ascii_forallb (f : ascii → bool) :
  forallb (fun n => f (ascii_of_nat n)) (seq 0 256) = true → ∀ c, f c = true.
Proof.
  intros Hall c. rewrite forallb_forall in Hall.
  rewrite <- (ascii_nat_embedding c). apply Hall, in_seq.
  pose proof (nat_ascii_bounded c). lia.
Qed.

Lemma slot_char_lower (c : ascii) :
  slot_char (lower_char c) = true → slot_char c = true.
Proof.
  intros H.
  assert (Hc := ascii_forallb
                  (fun c => implb (slot_char (lower_char c)) (slot_char c))
                  ltac:(vm_compute; reflexivity) c).
  cbv beta in Hc. by rewrite H in Hc.
Qed.

Lemma c_space_slot_char (c : ascii) : c_space c = true → slot_char c = true.
Proof.
  intros H.
  assert (Hc := ascii_forallb (fun c => implb (c_space c) (slot_char c))
                  ltac:(vm_compute; reflexivity) c).
  cbv beta in Hc. by rewrite H in Hc.
Qed.

Lemma lower_chars (s : string) :
  Forall (fun c => slot_char c = true) (String.list_ascii_of_string (lower s)) →
  Forall (fun c => slot_char c = true) (String.list_ascii_of_string s).
Proof.
  induction s as [|c s IH]; [done|].
  rewrite lower_cons. cbn [String.list_ascii_of_string].
  intros H. inversion_clear H as [|? ? Hc Hs].
  constructor; [by apply slot_char_lower | by apply IH].
Qed.

Lemma lstrip_chars (s : string) :
  Forall (fun c => slot_char c = true) (String.list_ascii_of_string (lstrip s)) →
  Forall (fun c => slot_char c = true) (String.list_ascii_of_string s).
Proof.
  induction s as [|c s IH]; [done|]. cbn [lstrip].
  destruct (is_space c) eqn:Hc; [|done].
  intros H. cbn [String.list_ascii_of_string]. constructor; [|by apply IH].
  unfold slot_char. rewrite Hc. apply orb_true_r.
Qed.

Lemma rstrip_chars (s : string) :
  Forall (fun c => slot_char c = true) (String.list_ascii_of_string (rstrip s)) →
  Forall (fun c => slot_char c = true) (String.list_ascii_of_string s).
Proof.
  induction s as [|c s IH]; [done|]. cbn [rstrip].
  destruct (rstrip s) as [|c' kept] eqn:Hr.
  - destruct (is_space c) eqn:Hc; cbn [String.list_ascii_of_string]; intros H.
    + constructor; [|by apply IH].
      unfold slot_char. rewrite Hc. apply orb_true_r.
    + inversion_clear H as [|? ? Hc' _]. constructor; [done | by apply IH].
  - cbn [String.list_ascii_of_string]. intros H.
    inversion_clear H as [|? ? Hc' Hs]. constructor; [done | by apply IH].
Qed.

Lemma skip_space_chars (s : string) :
  skip_space s = EmptyString →
  Forall (fun c => slot_char c = true) (String.list_ascii_of_string s).
Proof.
  induction s as [|c s IH]; [done|]. cbn [skip_space].
  destruct (c_space c) eqn:Hc; [|done]. intros H.
  cbn [String.list_ascii_of_string].
  constructor; [by apply c_space_slot_char | by apply IH].
Qed.

(** What the scanner reads is digits and underscores. *)
Lemma scan16_chars (s : string) :
  ∀ (prev : ascii) (k : nat) (a : N) (v : N) (k' : nat) (rest : string),
    scan16 s prev k a = Some (v, k', rest) →
    Forall (fun c => slot_char c = true) (String.list_ascii_of_string rest) →
    Forall (fun c => slot_char c = true) (String.list_ascii_of_string s).
Proof.
  induction s as [|c s IH]; intros prev k a v k' rest; cbn [scan16].
  - destruct (prev =? "_")%char; [done|]. by intros [= <- <- <-].
  - destruct (c =? "_")%char eqn:Hu.
    { destruct (prev =? "_")%char; [done|]. intros H Hrest.
      cbn [String.list_ascii_of_string]. constructor; [|by eapply IH].
      unfold slot_char. rewrite Hu. by rewrite orb_true_r. }
    destruct (digit_value c <? 16)%N eqn:Hd.
    { intros H Hrest.
      cbn [String.list_ascii_of_string]. constructor; [|by eapply IH].
      unfold slot_char. by rewrite Hd. }
    destruct (prev =? "_")%char; [done|]. by intros [= <- <- <-].
Qed.

Lemma int16_0x_chars (rest : string) (n : Z) :
  int16 (String "0" (String "x" rest)) = Some n →
  Forall (fun c => slot_char c = true) (String.list_ascii_of_string rest).
Proof.
  unfold int16. cbn [skip_space]. change (c_space "0") with false.
  cbv iota. change ("0" =? "+")%char with false.
  change ("0" =? "-")%char with false. cbv iota.
  change (("0" =? "0")%char && (("x" =? "x")%char || ("x" =? "X")%char))
    with true.
  cbv iota.
  assert (Hgo : ∀ s,
    match s with
    | EmptyString => None
    | String c _ =>
        if (c =? "_")%char then None
        else match scan16 s Ascii.zero 0 0 with
             | Some (v, k, rest') =>
                 match k, skip_space rest' with
                 | S _, EmptyString => Some (Z.of_N v)
                 | _, _ => None
                 end
             | None => None
             end
    end = Some n →
    Forall (fun c => slot_char c = true) (String.list_ascii_of_string s)).
  { intros s H. destruct s as [|c s]; [done|].
    destruct (c =? "_")%char; [done|].
    destruct (scan16 (String c s) Ascii.zero 0 0) as [[[v k] rest']|] eqn:E;
      [|done].
    destruct k; [done|].
    destruct (skip_space rest') eqn:Hsk; [|done].
    eapply scan16_chars; [exact E|]. by apply skip_space_chars. }
  destruct rest as [|c2 rest']; [done|].
  destruct (c2 =? "_")%char eqn:Hu; cbv iota;
    [|exact (Hgo (String c2 rest'))].
  intros H. cbn [String.list_ascii_of_string].
  constructor; [|exact (Hgo rest' H)].
  unfold slot_char. rewrite Hu. by rewrite orb_true_r.
Qed.

Lemma parse_slot_hex_chars (raw : string) (n : Z) :
  Slots.parse_slot_hex raw = Ret n →
  Forall (fun c => slot_char c = true) (String.list_ascii_of_string raw).
Proof.
  unfold Slots.parse_slot_hex. intros H.
  destruct (Report.starts_with "0x" (lower (strip raw))) eqn:Hp;
    [|discriminate].
  destruct (starts_with_0x _ Hp) as (rest & Hs). rewrite Hs in H.
  destruct (int16 (String "0" (String "x" rest))) as [m|] eqn:Hint;
    [|discriminate].
  apply int16_0x_chars in Hint.
  apply lstrip_chars, rstrip_chars, lower_chars.
  fold (strip raw). rewrite Hs. cbn [String.list_ascii_of_string].
  by repeat constructor.
Qed.

(** Every failure of [parse_slot_hex] is a [ValueError]. *)
Lemma parse_slot_hex_outcomes (raw : string) :
  (∃ n, Slots.parse_slot_hex raw = Ret n) ∨
  (∃ msg, Slots.parse_slot_hex raw = Raise (ValueError msg)).
Proof.
  unfold Slots.parse_slot_hex.
  destruct (Report.starts_with "0x" (lower (strip raw))); [|right; by eexists].
  destruct (int16 (lower (strip raw))); [left|right]; by eexists.
Qed.

(** X18: a raw index holding any character that is not a hex digit, an
    [x], an underscore or white space is refused by [parse_slot_hex] with a
    [ValueError]: a colon, a sign after the prefix, a letter beyond [f]. *)
Theorem parse_slot_hex_rejects (raw : string) (c : ascii) :
  is_ascii raw = true →
  c ∈ String.list_ascii_of_string raw →
  slot_char c = false →
  ∃ msg, Slots.parse_slot_hex raw = Raise (ValueError msg).
Proof.
  intros _ Hin Hc.
  destruct (parse_slot_hex_outcomes raw) as [[n Hn]|]; [|done].
  apply parse_slot_hex_chars in Hn. rewrite Forall_forall in Hn.
  specialize (Hn c Hin). congruence.
Qed.

Lemma parse_slot_hex_rejects_witness :
  ∃ msg, Slots.parse_slot_hex "b:0x1" = Raise (ValueError msg).
Proof.
  apply (parse_slot_hex_rejects "b:0x1" ":").
  - reflexivity.
  - cbn. set_solver.
  - reflexivity.
Defined.

End SlotHexFacts.

(** ** Slot resolution *)

Section SlotsFacts.

Import Slots.

(** The loops of [parse_slots] append one slot per entry, in order, and
    return only when every entry resolves. *)
Lemma collect_ret {X} (entry : X → outcome Slot) (xs : list X) :
  ∀ (slots out : list Slot),
    collect entry xs slots = Ret out
    ↔ ∃ new, out = slots ++ new ∧ Forall2 (fun x s => entry x = Ret s) xs new.
Proof.
  induction xs as [|x xs IH]; intros slots out; cbn [collect].
  - split.
    + intros [= <-]. exists []. by rewrite app_nil_r.
    + intros (new & -> & Hnew). apply Forall2_nil_inv_l in Hnew as ->.
      by rewrite app_nil_r.
  - destruct (entry x) as [s|e|code] eqn:Hx.
    + rewrite IH. split.
      * intros (new & -> & Hnew). exists (s :: new).
        split; [by rewrite <- app_assoc|]. by constructor.
      * intros (new & -> & Hnew).
        apply Forall2_cons_inv_l in Hnew as (s' & new' & Hs & Hnew & ->).
        rewrite Hx in Hs. injection Hs as <-.
        exists new'. split; [by rewrite <- app_assoc|done].
    + split; [done|]. intros (new & _ & Hnew).
      apply Forall2_cons_inv_l in Hnew as (s' & new' & Hs & _ & _).
      congruence.
    + split; [done|]. intros (new & _ & Hnew).
      apply Forall2_cons_inv_l in Hnew as (s' & new' & Hs & _ & _).
      congruence.
Qed.

(** The first entry that fails ends the loop with its exception. *)
Lemma collect_raise {X} (entry : X → outcome Slot) (good : list X) (x : X)
    (rest : list X) (e : exn) :
  ∀ slots,
    Forall (fun i => ∃ s, entry i = Ret s) good →
    entry x = Raise e →
    collect entry (good ++ x :: rest) slots = Raise e.
Proof.
  induction good as [|g good IH]; intros slots Hgood Hx; cbn [collect app].
  - by rewrite Hx.
  - inversion_clear Hgood as [|? ? [s Hs] Hgood'].
    rewrite Hs. by apply IH.
Qed.

Lemma slot_entry_ret (item : string) (s : Slot) :
  slot_entry item = Ret s
  ↔ s.1 = (label_raw item).1 ∧ parse_slot_hex (label_raw item).2 = Ret s.2.
Proof.
  unfold slot_entry, with_label. destruct (label_raw item) as [label raw].
  destruct s as [l idx]. cbn [fst snd].
  destruct (parse_slot_hex raw) as [n|e|code]; split;
    try (intros [= -> ->]; done); try (intros [_ [=]]; done).
  intros [-> [= ->]]. done.
Qed.

Lemma slot_entry_raise (item : string) (e : exn) :
  slot_entry item = Raise e ↔ parse_slot_hex (label_raw item).2 = Raise e.
Proof.
  unfold slot_entry, with_label. destruct (label_raw item) as [label raw].
  cbn [snd]. destruct (parse_slot_hex raw); cbv iota; split; intros [=]; by subst.
Qed.

Lemma parse_slots_items_run (load : string → outcome json) (args : Args)
    (items : list string) (slots : list Slot) :
  a_slot args = Some items → items ≠ [] →
  parse_slots load args = Ret slots
  ↔ Forall2 (fun item (s : Slot) =>
               s.1 = (label_raw item).1 ∧
               parse_slot_hex (label_raw item).2 = Ret s.2) items slots.
Proof.
  intros Hitems Hne. unfold parse_slots. rewrite Hitems.
  destruct items as [|item items]; [done|].
  rewrite collect_ret. split.
  - intros (new & -> & Hnew). cbn [app].
    eapply Forall2_impl; [exact Hnew|]. intros x s. apply slot_entry_ret.
  - intros H. exists slots. split; [done|].
    eapply Forall2_impl; [exact H|]. intros x s. apply slot_entry_ret.
Qed.

Lemma parse_slots_items_raise (load : string → outcome json) (args : Args)
    (good : list string) (item : string) (rest : list string) (e : exn) :
  a_slot args = Some (good ++ item :: rest) →
  Forall (fun i => ∃ n, parse_slot_hex (label_raw i).2 = Ret n) good →
  parse_slot_hex (label_raw item).2 = Raise e →
  parse_slots load args = Raise e.
Proof.
  intros Hitems Hgood Hbad. unfold parse_slots. rewrite Hitems.
  destruct (good ++ item :: rest) as [|i0 items0] eqn:Hl.
  { by destruct good. }
  rewrite <- Hl. apply collect_raise.
  - eapply Forall_impl; [exact Hgood|]. intros i [n Hn].
    exists ((label_raw i).1, n). by apply slot_entry_ret.
  - by apply slot_entry_raise.
Qed.

(** X19: with [--slot] given, [parse_slots] returns exactly one slot per
    item, in the order of the command line: its label is the text before
    the first colon, or the whole item when there is none, and its index
    is what [parse_slot_hex] reads behind that colon, or in the whole
    item.  The manifest plays no part.  Stated for items of ASCII text. *)
Theorem parse_slots_items (load : string → outcome json) (args : Args)
    (items : list string) (slots : list Slot) :
  a_slot args = Some items → items ≠ [] →
  Forall (fun item => PyStr.is_ascii item = true) items →
  parse_slots load args = Ret slots
  ↔ Forall2 (fun item (s : Slot) =>
               s.1 = (label_raw item).1 ∧
               parse_slot_hex (label_raw item).2 = Ret s.2) items slots.
Proof. intros Hitems Hne _. by apply parse_slots_items_run. Qed.

Lemma parse_slots_items_witness :
  let args := {| a_rpc := "http://localhost:8545"; a_address := "0x00";
                 a_from_block := 1000; a_to_block := 2000; a_step := 500;
                 a_slot := Some ["owner:0x0"; "0x1F"];
                 a_manifest := Some "slots.json";
                 a_timeout := 30; a_json := false |} in
  parse_slots (fun _ => Raise (Failure "no such file")) args
  = Ret [("owner", 0); ("0x1F", 31)]
  ↔ Forall2 (fun item (s : Slot) =>
               s.1 = (label_raw item).1 ∧
               parse_slot_hex (label_raw item).2 = Ret s.2)
            ["owner:0x0"; "0x1F"] [("owner", 0); ("0x1F", 31)].
Proof.
  intros args.
  apply (parse_slots_items (fun _ => Raise (Failure "no such file")) args
           ["owner:0x0"; "0x1F"] [("owner", 0); ("0x1F", 31)]).
  - reflexivity.
  - discriminate.
  - by repeat constructor.
Defined.

(** X20: the items of [--slot] are taken all or none: the first item whose
    index [parse_slot_hex] refuses makes [parse_slots] raise that very
    error, whatever the items after it are.  Stated for items of ASCII
    text up to and including the refused one. *)
Theorem parse_slots_first_error (load : string → outcome json) (args : Args)
    (good : list string) (item : string) (rest : list string) (e : exn) :
  a_slot args = Some (good ++ item :: rest) →
  Forall (fun i => PyStr.is_ascii i = true) good →
  PyStr.is_ascii item = true →
  Forall (fun i => ∃ n, parse_slot_hex (label_raw i).2 = Ret n) good →
  parse_slot_hex (label_raw item).2 = Raise e →
  parse_slots load args = Raise e.
Proof.
  intros Hitems _ _ Hgood Hbad.
  by apply (parse_slots_items_raise load args good item rest e).
Qed.

Lemma parse_slots_first_error_witness :
  let args := {| a_rpc := "http://localhost:8545"; a_address := "0x00";
                 a_from_block := 1000; a_to_block := 2000; a_step := 500;
                 a_slot := Some ["owner:0x0"; "admin:12"; "x:zz"];
                 a_manifest := None;
                 a_timeout := 30; a_json := false |} in
  parse_slots (fun _ => Ret JNull) args
  = Raise (ValueError "Slot must be 0x-prefixed hex: 12").
Proof.
  intros args.
  apply (parse_slots_first_error (fun _ => Ret JNull) args
           ["owner:0x0"] "admin:12" ["x:zz"]).
  - reflexivity.
  - by repeat constructor.
  - reflexivity.
  - repeat constructor. by exists 0.
  - reflexivity.
Defined.

Lemma slot_entry_outcomes (item : string) :
  (∃ s, slot_entry item = Ret s) ∨
  (∃ msg, slot_entry item = Raise (ValueError msg)).
Proof.
  unfold slot_entry, with_label. destruct (label_raw item) as [label raw].
  destruct (parse_slot_hex_outcomes raw) as [[n ->]|[msg ->]];
    [left|right]; by eexists.
Qed.

Lemma collect_slot_entry_outcomes (items : list string) :
  ∀ slots,
    (∃ out, collect slot_entry items slots = Ret out) ∨
    (∃ msg, collect slot_entry items slots = Raise (ValueError msg)).
Proof.
  induction items as [|item items IH]; intros slots; cbn [collect].
  - left. by eexists.
  - destruct (slot_entry_outcomes item) as [[s ->]|[msg ->]]; [apply IH|].
    right. by eexists.
Qed.

Lemma label_raw_split (item label raw : string) :
  split_colon item = Some (label, raw) → label_raw item = (label, raw).
Proof. unfold label_raw. by intros ->. Qed.

(** X21: a [--slot] item holds at most one colon.  The label ends at the
    first colon; a second colon is left in the raw index, which
    [parse_slot_hex] refuses, so that [parse_slots] raises a
    [ValueError]. *)
Theorem parse_slots_second_colon (load : string → outcome json) (args : Args)
    (items : list string) (item label raw : string) :
  a_slot args = Some items →
  item ∈ items →
  PyStr.is_ascii item = true →
  split_colon item = Some (label, raw) →
  ":"%char ∈ String.list_ascii_of_string raw →
  ∃ msg, parse_slots load args = Raise (ValueError msg).
Proof.
  intros Hitems Hin _ Hsplit Hcolon.
  assert (Hne : items ≠ []) by (intros ->; by apply elem_of_nil in Hin).
  assert (Hout : (∃ out, parse_slots load args = Ret out) ∨
                 (∃ msg, parse_slots load args = Raise (ValueError msg))).
  { unfold parse_slots. rewrite Hitems. destruct items as [|i0 items0]; [done|].
    apply collect_slot_entry_outcomes. }
  destruct Hout as [[out Hout]|]; [|done]. exfalso.
  apply (parse_slots_items_run load args items out Hitems Hne) in Hout.
  apply list_elem_of_lookup_1 in Hin as [i Hi].
  destruct (Forall2_lookup_l _ _ _ _ _ Hout Hi) as (s & _ & _ & Hs).
  rewrite (label_raw_split _ _ _ Hsplit) in Hs. cbn [snd] in Hs.
  apply parse_slot_hex_chars in Hs. rewrite Forall_forall in Hs.
  by specialize (Hs _ Hcolon).
Qed.

Lemma parse_slots_second_colon_witness :
  let args := {| a_rpc := "http://localhost:8545"; a_address := "0x00";
                 a_from_block := 1000; a_to_block := 2000; a_step := 500;
                 a_slot := Some ["owner:0x0"; "vault:admin:0x1"];
                 a_manifest := None;
                 a_timeout := 30; a_json := false |} in
  ∃ msg, parse_slots (fun _ => Ret JNull) args = Raise (ValueError msg).
Proof.
  intros args.
  apply (parse_slots_second_colon (fun _ => Ret JNull) args
           ["owner:0x0"; "vault:admin:0x1"] "vault:admin:0x1"
           "vault" "admin:0x1").
  - reflexivity.
  - set_solver.
  - reflexivity.
  - reflexivity.
  - cbn. set_solver.
Defined.

Lemma list_entry_ret (v : json) (s : Slot) :
  list_entry v = Ret s ↔ v = JStr s.1 ∧ parse_slot_hex s.1 = Ret s.2.
Proof.
  destruct s as [l idx]. cbn [fst snd].
  destruct v as [|b|n|x|raw|l'|d]; cbn [list_entry];
    try (split; [done | by intros [[=] _]]).
  unfold with_label. split.
  - destruct (parse_slot_hex raw) as [n| |] eqn:E; try done.
    intros [= -> ->]. by rewrite E.
  - intros [[= ->] ->]. done.
Qed.

Lemma dict_entry_ret (kv : string * json) (s : Slot) :
  dict_entry kv = Ret s
  ↔ s.1 = kv.1 ∧ ∃ raw, kv.2 = JStr raw ∧ parse_slot_hex raw = Ret s.2.
Proof.
  destruct s as [l idx]. destruct kv as [k v]. cbn [fst snd].
  unfold dict_entry, with_label. cbn [fst snd].
  destruct v as [|b|n|x|raw|l'|d]; cbn [parse_slot_value];
    try (split; [done | by intros [_ (raw & [=] & _)]]).
  split.
  - destruct (parse_slot_hex raw) as [n| |] eqn:E; try done.
    intros [= -> ->]. split; [done|]. by exists raw.
  - intros [-> (raw' & [= <-] & ->)]. done.
Qed.

(** X22: with no [--slot] item, the slots are those of the manifest.  Of a
    list, every entry must be a string, which is both the label and the raw
    index of its slot; of a mapping, every key is a label and every value
    must be a string, the raw index.  The slots keep the order of the
    document.  Stated for manifests whose raw indices are ASCII text. *)
Theorem parse_slots_manifest (load : string → outcome json) (args : Args)
    (path : string) (slots : list Slot) :
  (a_slot args = None ∨ a_slot args = Some []) →
  a_manifest args = Some path → path ≠ EmptyString →
  (∀ data, load path = Ret (JList data) →
     Forall (fun v => ascii_text v = true) data →
     parse_slots load args = Ret slots
     ↔ Forall2 (fun v (s : Slot) =>
                  v = JStr s.1 ∧ parse_slot_hex s.1 = Ret s.2) data slots) ∧
  (∀ data, load path = Ret (JDict data) →
     Forall (fun kv : string * json => ascii_text kv.2 = true) data →
     parse_slots load args = Ret slots
     ↔ Forall2 (fun (kv : string * json) (s : Slot) =>
                  s.1 = kv.1 ∧
                  ∃ raw, kv.2 = JStr raw ∧ parse_slot_hex raw = Ret s.2)
               data slots).
Proof.
  intros Hslot Hman Hpath.
  assert (Hgo : parse_slots load args
                = match load path with
                  | Ret (JList data) => collect list_entry data []
                  | Ret (JDict data) => collect dict_entry data []
                  | Ret _ =>
                      Raise (ValueError "Manifest must be a list of 0x-hex slots or a mapping label -> 0x-hex slot.")
                  | Raise e => Raise e
                  | Exit code => Exit code
                  end).
  { unfold parse_slots. rewrite Hman.
    destruct path as [|c path]; [done|]. by destruct Hslot as [->| ->]. }
  rewrite Hgo. split; intros data -> _; rewrite collect_ret; split.
  - intros (new & -> & Hnew). cbn [app].
    eapply Forall2_impl; [exact Hnew|]. intros x s. apply list_entry_ret.
  - intros H. exists slots. split; [done|].
    eapply Forall2_impl; [exact H|]. intros x s. apply list_entry_ret.
  - intros (new & -> & Hnew). cbn [app].
    eapply Forall2_impl; [exact Hnew|]. intros x s. apply dict_entry_ret.
  - intros H. exists slots. split; [done|].
    eapply Forall2_impl; [exact H|]. intros x s. apply dict_entry_ret.
Qed.

Lemma parse_slots_manifest_witness :
  let args := {| a_rpc := "http://localhost:8545"; a_address := "0x00";
                 a_from_block := 1000; a_to_block := 2000; a_step := 500;
                 a_slot := None; a_manifest := Some "slots.json";
                 a_timeout := 30; a_json := false |} in
  let load := fun _ : string => Ret (JList [JStr "0x0"; JStr " 0x1F"]) in
  let slots : list Slot := [("0x0", 0); (" 0x1F", 31)] in
  (∀ data, load "slots.json" = Ret (JList data) →
     Forall (fun v => ascii_text v = true) data →
     parse_slots load args = Ret slots
     ↔ Forall2 (fun v (s : Slot) =>
                  v = JStr s.1 ∧ parse_slot_hex s.1 = Ret s.2) data slots) ∧
  (∀ data, load "slots.json" = Ret (JDict data) →
     Forall (fun kv : string * json => ascii_text kv.2 = true) data →
     parse_slots load args = Ret slots
     ↔ Forall2 (fun (kv : string * json) (s : Slot) =>
                  s.1 = kv.1 ∧
                  ∃ raw, kv.2 = JStr raw ∧ parse_slot_hex raw = Ret s.2)
               data slots).
Proof.
  intros args load slots.
  apply (parse_slots_manifest load args "slots.json" slots).
  - by left.
  - reflexivity.
  - discriminate.
Defined.

End SlotsFacts.

(** ** [main] over [parse_slots] *)

Lemma main_parse_slots_raise_run (env : Env) (load : string → outcome json)
    (args : Args) (e : exn) (w : World) :
  a_from_block args ≤ a_to_block args → 0 < a_step args →
  web3_is_address env (a_address args) = true →
  Slots.parse_slots load args = Raise e →
  Report.main (with_parse_slots load env) args w
  = (Exit 1, {| w_calls := w_calls w; w_clock := w_clock w;
                w_stdout := w_stdout w ++ [L_input_error (exn_str e)] |}).
Proof.
  intros Hrange Hstep Haddr Hslots. unfold Report.main.
  destruct (Z.ltb_spec (a_to_block args) (a_from_block args)); [lia|].
  destruct (Z.leb_spec (a_step args) 0); [lia|].
  unfold Report.to_checksum, with_parse_slots.
  cbn [web3_is_address web3_to_checksum_address parse_slots].
  rewrite Haddr, Hslots. reflexivity.
Qed.

(** X23: a run given a valid range and address but neither a [--slot] item
    nor a manifest path prints the complaint of [parse_slots], that no
    slots were provided, and ends with status 1; it makes no StorageReader
    request and does not read the clock. *)
Theorem main_without_slots (env : Env) (load : string → outcome json)
    (args : Args) (w : World) :
  a_from_block args ≤ a_to_block args → 0 < a_step args →
  web3_is_address env (a_address args) = true →
  (a_slot args = None ∨ a_slot args = Some []) →
  (a_manifest args = None ∨ a_manifest args = Some EmptyString) →
  Report.main (with_parse_slots load env) args w
  = (Exit 1,
     {| w_calls := w_calls w; w_clock := w_clock w;
        w_stdout :=
          w_stdout w
          ++ [L_input_error "No slots provided. Use --slot (repeatable) or --manifest JSON file."] |}).
Proof.
  intros Hrange Hstep Haddr Hslot Hman.
  apply (main_parse_slots_raise_run env load args
           (ValueError "No slots provided. Use --slot (repeatable) or --manifest JSON file."));
    try done.
  unfold Slots.parse_slots.
  by destruct Hslot as [->| ->]; destruct Hman as [->| ->].
Qed.

Lemma main_without_slots_witness :
  let env := {| globals := module_globals "http://localhost:8545";
                storage := fun _ _ => inl [x01];
                hex_0x := true;
                web3_is_address := fun _ => true;
                web3_to_checksum_address := fun a => a;
                parse_slots := fun _ => Ret [];
                rpc_connected := fun _ _ => true;
                rpc_chain_id := Ret 1 |} in
  let args := {| a_rpc := "http://localhost:8545"; a_address := "0x00";
                 a_from_block := 1000; a_to_block := 2000; a_step := 500;
                 a_slot := None; a_manifest := None;
                 a_timeout := 30; a_json := false |} in
  Report.main (with_parse_slots (fun _ => Ret JNull) env) args world0
  = (Exit 1,
     {| w_calls := w_calls world0; w_clock := w_clock world0;
        w_stdout :=
          w_stdout world0
          ++ [L_input_error "No slots provided. Use --slot (repeatable) or --manifest JSON file."] |}).
Proof.
  intros env args.
  apply (main_without_slots env (fun _ => Ret JNull) args world0).
  - simpl. lia.
  - simpl. lia.
  - reflexivity.
  - by left.
  - by left.
Defined.

Lemma flat_map_nil {A B} (l : list A) : flat_map (fun _ : A => @nil B) l = [].
Proof. by induction l. Qed.

(** X24: a manifest without entries is accepted.  With [start_time] bound,
    the run then scans no slot: it makes no StorageReader request and ends
    with status 0, the verdict of a range in which nothing changed. *)
Theorem main_empty_manifest (env : Env) (load : string → outcome json)
    (args : Args) (path : string) (t : num) (w : World) :
  globals env !! "start_time" = Some (PNum t) →
  a_from_block args ≤ a_to_block args →
  0 < a_step args →
  web3_is_address env (a_address args) = true →
  (a_slot args = None ∨ a_slot args = Some []) →
  a_manifest args = Some path → path ≠ EmptyString →
  (load path = Ret (JList []) ∨ load path = Ret (JDict [])) →
  Report.starts_with "http://" (a_rpc args)
  || Report.starts_with "https://" (a_rpc args) = true →
  rpc_connected env (a_rpc args) (a_timeout args) = true →
  (∀ code, rpc_chain_id env ≠ Exit code) →
  (Report.main (with_parse_slots load env) args w).1 = Exit 0 ∧
  w_calls (Report.main (with_parse_slots load env) args w).2 = w_calls w.
Proof.
  intros Hg Hrange Hstep Haddr Hslot Hman Hpath Hload Hurl Hconn Hchain.
  assert (Hslots : parse_slots (with_parse_slots load env) args = Ret []).
  { cbn [parse_slots with_parse_slots]. unfold Slots.parse_slots.
    rewrite Hman. destruct path as [|c path]; [done|].
    by destruct Hslot as [->| ->]; destruct Hload as [->| ->]. }
  destruct (main_scan_report_run (with_parse_slots load env) args [] t w
              Hg Hrange Hstep Haddr Hslots Hurl Hconn Hchain)
    as (blocks & timeline & code & _ & _ & Hkeys & _ & Hexit & Hcode & _
        & Hcalls & _).
  assert (Htl : timeline = []).
  { destruct timeline as [|[lbl series] timeline]; [done|].
    specialize (Hkeys lbl). cbn in Hkeys.
    exfalso. eapply not_elem_of_nil. apply Hkeys. by left. }
  subst timeline. split.
  - rewrite Hexit. f_equal. apply Hcode. constructor.
  - rewrite Hcalls. cbn [map]. by rewrite flat_map_nil, app_nil_r.
Qed.

Lemma main_empty_manifest_witness :
  let env := with_start_time (Now 0)
               {| globals := module_globals "http://localhost:8545";
                  storage := timeout_at_1500;
                  hex_0x := true; web3_is_address := fun _ => true;
                  web3_to_checksum_address := fun a => a;
                  parse_slots := fun _ => Ret [];
                  rpc_connected := fun _ _ => true;
                  rpc_chain_id := Ret 1 |} in
  let args := {| a_rpc := "http://localhost:8545"; a_address := "0x00";
                 a_from_block := 1000; a_to_block := 2000; a_step := 500;
                 a_slot := None; a_manifest := Some "slots.json";
                 a_timeout := 30; a_json := false |} in
  let load := fun _ : string => Ret (JList []) in
  (Report.main (with_parse_slots load env) args world0).1 = Exit 0 ∧
  w_calls (Report.main (with_parse_slots load env) args world0).2
  = w_calls world0.
Proof.
  intros env args load.
  apply (main_empty_manifest env load args "slots.json" (Now 0) world0).
  - reflexivity.
  - simpl. lia.
  - simpl. lia.
  - reflexivity.
  - by left.
  - reflexivity.
  - discriminate.
  - by left.
  - reflexivity.
  - reflexivity.
  - intros code. simpl. discriminate.
Defined.

(** ** The JSON report *)

(** X25: with [--json] and [start_time] bound, the last line a successful
    run prints is the JSON report.  It carries the slots as resolved, the
    scanned timelines, the change points of each of them, their transitions
    summed up as [total_changes], and [ok] is true exactly when the run
    exits with status 0. *)
Theorem main_json_report (env : Env) (args : Args) (slots : list Slot)
    (t : num) (w : World) :
  globals env !! "start_time" = Some (PNum t) →
  a_from_block args ≤ a_to_block args →
  0 < a_step args →
  web3_is_address env (a_address args) = true →
  parse_slots env args = Ret slots →
  Report.starts_with "http://" (a_rpc args)
  || Report.starts_with "https://" (a_rpc args) = true →
  rpc_connected env (a_rpc args) (a_timeout args) = true →
  (∀ code, rpc_chain_id env ≠ Exit code) →
  a_json args = true →
  ∃ blocks timeline code elapsed,
    Range.sampled_blocks (a_from_block args) (a_to_block args) (a_step args)
    = Ret blocks ∧
    (∀ lbl, lbl ∈ slots.*1 →
       Dict.get lbl timeline
       = Some (ScanSpec.timeline_of lbl
                 (ScanSpec.samples env
                    (web3_to_checksum_address env (a_address args))
                    (ScanSpec.visits slots blocks) (w_calls w)))) ∧
    (Report.main env args w).1 = Exit code ∧
    last (w_stdout (Report.main env args w).2)
    = Some (L_json
              {| j_rpc := a_rpc args;
                 j_address := web3_to_checksum_address env (a_address args);
                 j_range := (a_from_block args, a_to_block args, a_step args);
                 j_slots := slots;
                 j_timeline := timeline;
                 j_change_points := Report.change_points_of timeline;
                 j_total_changes :=
                   Report.sum_transitions (Report.change_points_of timeline);
                 j_ok := code =? 0;
                 j_elapsed_seconds := elapsed |}).
Proof.
  intros Hg Hrange Hstep Haddr Hslots Hurl Hconn Hchain Hjson.
  destruct (main_scan_report_run env args slots t w Hg Hrange Hstep Haddr
              Hslots Hurl Hconn Hchain)
    as (blocks & timeline & code & Hb & Hget & _ & _ & Hexit & _ & _ & _
        & Hlast).
  destruct (Hlast Hjson) as [elapsed Helapsed].
  by exists blocks, timeline, code, elapsed.
Qed.

Lemma main_json_report_witness :
  let env := with_start_time (Now 0)
               {| globals := module_globals "http://localhost:8545";
                  storage := timeout_at_1500;
                  hex_0x := true; web3_is_address := fun _ => true;
                  web3_to_checksum_address := fun a => a;
                  parse_slots := fun _ => Ret [("owner", 0)];
                  rpc_connected := fun _ _ => true;
                  rpc_chain_id := Ret 1 |} in
  let args := {| a_rpc := "http://localhost:8545"; a_address := "0x00";
                 a_from_block := 1000; a_to_block := 2000; a_step := 500;
                 a_slot := Some ["owner:0x0"]; a_manifest := None;
                 a_timeout := 30; a_json := true |} in
  let slots : list Slot := [("owner", 0)] in
  ∃ blocks timeline code elapsed,
    Range.sampled_blocks 1000 2000 500 = Ret blocks ∧
    (∀ lbl, lbl ∈ slots.*1 →
       Dict.get lbl timeline
       = Some (ScanSpec.timeline_of lbl
                 (ScanSpec.samples env "0x00"
                    (ScanSpec.visits slots blocks) (w_calls world0)))) ∧
    (Report.main env args world0).1 = Exit code ∧
    last (w_stdout (Report.main env args world0).2)
    = Some (L_json
              {| j_rpc := "http://localhost:8545";
                 j_address := "0x00";
                 j_range := (1000, 2000, 500);
                 j_slots := slots;
                 j_timeline := timeline;
                 j_change_points := Report.change_points_of timeline;
                 j_total_changes :=
                   Report.sum_transitions (Report.change_points_of timeline);
                 j_ok := code =? 0;
                 j_elapsed_seconds := elapsed |}).
Proof.
  intros env args slots.
  apply (main_json_report env args slots (Now 0) world0).
  - reflexivity.
  - simpl. lia.
  - simpl. lia.
  - reflexivity.
  - reflexivity.
  - reflexivity.
  - reflexivity.
  - intros code. simpl. discriminate.
  - reflexivity.
Defined.
